(** * find_duplicates: the ASCII duplicate detector of find_duplicates.c

    A shallow embedding of [find_duplicates] (src/find_duplicates.c) and of
    the driver's test input (src/main.c), followed by the properties of the
    specification that were checked against it.

    Modelling choices, all taken from the C source:
    - [char *str] is [option string]: [None] is the NULL pointer, [Some mem]
      is the memory the pointer refers to.  Reading stops at the first NUL
      character; the end of the Rocq string stands for the terminator.
    - [uint8_t] and [uint16_t] values are [Z] with the wrap-around written
      out ([uint8], [uint16]); bit operations are those of [Z].
    - [character_tracker] and [result] are lists indexed with stdpp's lookup
      and insert; an index outside the array is reported as [Trap] instead of
      being silently ignored.
    - [write(1, buf, n)] talks to a file descriptor whose behaviour is a
      script of replies fixed by the environment; every call and its return
      value is logged. *)

From Stdlib Require Import ZArith Lia Bool Ascii.
From Stdlib Require String.
From stdpp Require Import base list strings.

Local Open Scope Z_scope.

(** ** Machine integers *)

Definition uint8 (z : Z) : Z := z mod 256.
Definition uint16 (z : Z) : Z := z mod 65536.

(** [(unsigned char)c] for a character read from memory. *)
Definition uchar (c : ascii) : Z := Z.of_N (N_of_ascii c).

(** Conversion of an [uint8_t] back to [char] when it is stored in [result]. *)
Definition to_char (z : Z) : ascii := ascii_of_N (Z.to_N z).

Definition NUL : ascii := "000"%char.
Definition LF : ascii := "010"%char.

(** ** The output sink: file descriptor 1 *)

(** What the environment answers to one [write] call: it takes every byte,
    it takes only the first [n] of them, or it fails with -1. *)
Inductive reply : Type :=
| Accept
| Short (n : nat)
| Reject.

(** [calls] logs every [write] call (oldest first) as the bytes offered and
    the value returned; [script] holds the replies for the calls still to
    come, an exhausted script accepting everything. *)
Record fd : Type := mkfd {
  calls : list (list ascii * Z);
  script : list reply
}.

Definition fresh (sc : list reply) : fd := mkfd [] sc.

Definition answer (r : reply) (count : Z) : Z :=
  match r with
  | Accept => count
  | Short n => Z.min (Z.of_nat n) count
  | Reject => -1
  end.

(** Bytes that reached the sink through one logged call. *)
Definition taken (c : list ascii * Z) : list ascii :=
  if c.2 =? -1 then [] else take (Z.to_nat c.2) c.1.

(** Everything the sink received, in order. *)
Definition delivered (w : fd) : list ascii := concat (taken <$> calls w).

(** ** Control flow of the function body *)

(** One statement either falls through with a value, leaves the function
    with a return value and the state of the sink, or touches memory outside
    an array. *)
Inductive step (A : Type) : Type :=
| Next (a : A)
| Return (rv : Z) (out : fd)
| Trap.
Arguments Next {A} a.
Arguments Return {A} rv out.
Arguments Trap {A}.

#[global] Instance step_ret : MRet step := @Next.

#[global] Instance step_bind : MBind step := fun A B k m =>
  match m with
  | Next a => k a
  | Return rv out => Return rv out
  | Trap => Trap
  end.

(** [write(1, buf, count)]: reads [buf[0..count)] and returns the sink's
    answer together with the updated descriptor. *)
Definition sys_write (w : fd) (buf : list ascii) (count : Z) : step (Z * fd) :=
  if (0 <=? count) && (count <=? Z.of_nat (length buf)) then
    let r := match script w with [] => Accept | r :: _ => r end in
    let ret := answer r count in
    Next (ret, mkfd (calls w ++ [(take (Z.to_nat count) buf, ret)]) (tail (script w)))
  else Trap.

(** ** Local variables of [find_duplicates] *)

Definition RESULT_BUFFER_SIZE : Z := 256.

Record frame : Type := mkframe {
  character_tracker : list Z;     (* uint8_t character_tracker[64] *)
  result : list ascii;            (* char result[RESULT_BUFFER_SIZE] *)
  output_idx : Z;                 (* uint16_t *)
  is_first_duplicate : Z;         (* char used as a flag *)
  stdout : fd
}.

(** Array reads and writes with the bounds made explicit. *)
Definition load {A : Type} (a : list A) (i : Z) : step A :=
  if (0 <=? i) && (i <? Z.of_nat (length a)) then
    match a !! Z.to_nat i with
    | Some v => Next v
    | None => Trap
    end
  else Trap.

Definition store {A : Type} (a : list A) (i : Z) (v : A) : step (list A) :=
  if (0 <=? i) && (i <? Z.of_nat (length a)) then Next (<[Z.to_nat i := v]> a)
  else Trap.

(** [result[output_idx++] = c;] *)
Definition push (c : ascii) (f : frame) : step frame :=
  r ← store (result f) (output_idx f) c;
  Next (mkframe (character_tracker f) r (uint16 (output_idx f + 1))
          (is_first_duplicate f) (stdout f)).

(** [if (write(1, result, output_idx) == -1) return -1; output_idx = 0;] *)
Definition flush (f : frame) : step frame :=
  rw ← sys_write (stdout f) (result f) (output_idx f);
  if rw.1 =? -1 then Return (-1) rw.2
  else Next (mkframe (character_tracker f) (result f) 0
               (is_first_duplicate f) rw.2).

(** [character_tracker[byte_index] |= mask;] *)
Definition tracker_or (byte_index mask : Z) (f : frame) : step frame :=
  b ← load (character_tracker f) byte_index;
  t ← store (character_tracker f) byte_index (uint8 (Z.lor b mask));
  Next (mkframe t (result f) (output_idx f) (is_first_duplicate f) (stdout f)).

Definition set_first (v : Z) (f : frame) : frame :=
  mkframe (character_tracker f) (result f) (output_idx f) v (stdout f).

Definition byte_index_of (character : Z) : Z := uint8 (Z.shiftr character 2).
Definition bit_position_of (character : Z) : Z := uint8 (Z.land character 3).
Definition seen_mask_of (character : Z) : Z :=
  uint8 (Z.shiftl 1 (bit_position_of character)).
Definition duplicate_mask_of (character : Z) : Z :=
  uint8 (Z.shiftl (seen_mask_of character) 4).

(** Lines 113-126: room for [", "] and the character, then the entry. *)
Definition emit (character : Z) (f : frame) : step frame :=
  f ← (if output_idx f + 3 >=? RESULT_BUFFER_SIZE then flush f else Next f);
  f ← (if is_first_duplicate f =? 0
           then f ← push ","%char f; push " "%char f
           else Next f);
  f ← push (to_char character) f;
  Next (set_first 0 f).

(** Body of the [while] loop (lines 84-129) for one character. *)
Definition loop_body (c : ascii) (f : frame) : step frame :=
  let character := uchar c in
  if (character >=? 32) && (character <=? 126) then
    let byte_index := byte_index_of character in
    let seen_mask := seen_mask_of character in
    let duplicate_mask := duplicate_mask_of character in
    b ← load (character_tracker f) byte_index;
    if Z.land b seen_mask =? 0 then
      tracker_or byte_index seen_mask f
    else
      b ← load (character_tracker f) byte_index;
      if Z.land b duplicate_mask =? 0 then
        f ← tracker_or byte_index duplicate_mask f;
        emit character f
      else Next f
  else Next f.

(** The [while] loop of lines 82-131: it reads the character under [str],
    stops at NUL, and otherwise runs the body and advances [str]. *)
Fixpoint scan (mem : string) (f : frame) : step frame :=
  match mem with
  | EmptyString => Next f
  | String c rest =>
      if Ascii.eqb c NUL then Next f
      else f ← loop_body c f; scan rest f
  end.

(** Lines 132-143. *)
Definition finish (f : frame) : step frame :=
  f ← (if output_idx f + 2 >=? RESULT_BUFFER_SIZE then flush f else Next f);
  f ← push "}"%char f;
  f ← push LF f;
  rw ← sys_write (stdout f) (result f) (output_idx f);
  if rw.1 =? -1 then Return (-1) rw.2 else Return 0 rw.2.

(** The string literal of line 62 as it lies in memory: 30 characters and
    the terminating NUL. *)
Definition diagnostic : list ascii :=
  String.list_ascii_of_string "Input string is null or empty" ++ [LF; NUL].

(** The character under the pointer [str]. *)
Definition deref (mem : string) : ascii :=
  match mem with
  | EmptyString => NUL
  | String c _ => c
  end.

Definition is_null_or_empty (str : option string) : bool :=
  match str with
  | None => true
  | Some mem => Ascii.eqb (deref mem) NUL
  end.

(** [find_duplicates] with the content [junk] that the uninitialised array
    [result] happens to hold on entry.  [None] stands for an access outside
    an array. *)
Definition find_duplicates_from (junk : list ascii) (str : option string)
    (out : fd) : option (Z * fd) :=
  let run :=
    if is_null_or_empty str then
      rw ← sys_write out diagnostic 31;
      if rw.1 =? -1 then Return (-1) rw.2 else Return (-1) rw.2
    else
      let f := mkframe (replicate 64 0) junk 0 1 out in
      f ← push "{"%char f;
      f ← scan (default EmptyString str) f;
      finish f
  in
  match run with
  | Return rv w => Some (rv, w)
  | Next _ | Trap => None
  end.

Definition find_duplicates (str : option string) (out : fd) : option (Z * fd) :=
  find_duplicates_from (replicate (Z.to_nat RESULT_BUFFER_SIZE) NUL) str out.

(** ** The driver (main.c) *)

(** [char str[512] = {0};] filled by the loop of lines 8-11: every character
    from 32 to 126 is stored twice, the rest of the array stays NUL. *)
Definition main_fill (st : list ascii * Z) (i : Z) : list ascii * Z :=
  let str := <[Z.to_nat st.2 := to_char i]> st.1 in
  let idx := st.2 + 1 in
  let str := <[Z.to_nat idx := to_char i]> str in
  (str, idx + 1).

Definition main_str : string :=
  String.string_of_list_ascii
    (foldl main_fill (replicate 512 NUL, 0) (Z.of_nat <$> seq 32 95)).1.

(** [find_duplicates(str); return 0;]: the result of the call is dropped. *)
Definition main (out : fd) : option (Z * fd) :=
  match find_duplicates (Some main_str) out with
  | Some (_, w) => Some (0, w)
  | None => None
  end.

(** ** Vocabulary of the specification *)

(** The alphabet: code points 32 to 126. *)
Definition printable (c : ascii) : bool := (32 <=? uchar c) && (uchar c <=? 126).

(** The C string stored in [mem]: the characters before the first NUL. *)
Fixpoint c_str (mem : string) : list ascii :=
  match mem with
  | EmptyString => []
  | String c rest => if Ascii.eqb c NUL then [] else c :: c_str rest
  end.

Definition occurrences (c : ascii) (l : list ascii) : nat :=
  length (filter (fun x => x = c) l).

(** The symbols of the alphabet at the positions where they occur for the
    second time, scanning [s] from left to right after [before]. *)
Fixpoint second_occurrences_from (before s : list ascii) : list ascii :=
  match s with
  | [] => []
  | c :: rest =>
      (if printable c && (occurrences c before =? 1)%nat then [c] else [])
      ++ second_occurrences_from (before ++ [c]) rest
  end.

Definition second_occurrences (s : list ascii) : list ascii :=
  second_occurrences_from [] s.

(** Entries separated by a comma and a space. *)
Fixpoint comma_separated (l : list ascii) : list ascii :=
  match l with
  | [] => []
  | [c] => [c]
  | c :: rest => c :: ","%char :: " "%char :: comma_separated rest
  end.

(** The report line for the entries [l]. *)
Definition report (l : list ascii) : list ascii :=
  "{"%char :: comma_separated l ++ ["}"%char; LF].

(** A sink that takes every byte of every write. *)
Definition accepting (sc : list reply) : Prop := Forall (fun r => r = Accept) sc.

(** ** Reading the tracker *)

(** Bit [bit_position + k] of the tracker byte of [character]: [k = 0] is the
    seen bit, [k = 4] the duplicate bit. *)
Definition tracker_bit (t : list Z) (k : Z) (character : Z) : bool :=
  match t !! Z.to_nat (byte_index_of character) with
  | Some b => Z.testbit b (bit_position_of character + k)
  | None => false
  end.

Definition seen_bit (f : frame) (c : ascii) : bool :=
  tracker_bit (character_tracker f) 0 (uchar c).
Definition duplicate_bit (f : frame) (c : ascii) : bool :=
  tracker_bit (character_tracker f) 4 (uchar c).

(** The byte-level form of "duplicate bit only with seen bit". *)
Definition nibbles_ok (b : Z) : Prop :=
  Z.land (Z.shiftr b 4) (Z.land b 15) = Z.shiftr b 4.

(** ** Invariants of the scan loop *)

(** Shapes of the arrays and range of the buffer index. *)
Record bounds (f : frame) : Prop := mkbounds {
  b_tracker : length (character_tracker f) = 64%nat;
  b_bytes : Forall (fun b => 0 <= b < 256) (character_tracker f);
  b_result : length (result f) = 256%nat;
  b_idx : 0 <= output_idx f <= 255
}.

(** The tracker records exactly how often each symbol occurred in [before]. *)
Definition tracks (before : list ascii) (f : frame) : Prop :=
  forall c, printable c = true ->
    (seen_bit f c = true <-> (1 <= occurrences c before)%nat) /\
    (duplicate_bit f c = true <-> (2 <= occurrences c before)%nat).

(** With a sink that accepts, the bytes already delivered followed by the
    bytes waiting in [result] are the report so far for the entries [l]. *)
Record streams (l : list ascii) (f : frame) : Prop := mkstreams {
  s_script : accepting (script (stdout f));
  s_text : delivered (stdout f) ++ take (Z.to_nat (output_idx f)) (result f)
           = "{"%char :: comma_separated l;
  s_first : is_first_duplicate f = if l is [] then 1 else 0
}.

(** Every logged call succeeded. *)
Definition unfailed (cs : list (list ascii * Z)) : Prop :=
  Forall (fun c => c.2 <> -1) cs.

(** ** Vocabulary of the proofs *)

(** What a statement establishes: [Q] if it falls through, [R] if it
    returns; it does not trap. *)
Definition wp {A : Type} (m : step A) (Q : A -> Prop) (R : Z -> fd -> Prop) : Prop :=
  match m with
  | Next a => Q a
  | Return rv w => R rv w
  | Trap => False
  end.

(** The frame after [result[output_idx++] = c] for every [c] of [cs]. *)
Definition pushed (cs : list ascii) (f : frame) : frame :=
  foldl (fun f c =>
           mkframe (character_tracker f) (<[Z.to_nat (output_idx f) := c]> (result f))
             (output_idx f + 1) (is_first_duplicate f) (stdout f)) f cs.

(** The tracker after [character_tracker[byte_index] |= mask] for the bit
    [bit_position + k] of [c]. *)
Definition marked (k : Z) (c : ascii) (t : list Z) : list Z :=
  let i := Z.to_nat (byte_index_of (uchar c)) in
  <[i := uint8 (Z.lor (t !!! i) (2 ^ (bit_position_of (uchar c) + k)))]> t.

Definition with_tracker (t : list Z) (f : frame) : frame :=
  mkframe t (result f) (output_idx f) (is_first_duplicate f) (stdout f).

(** The descriptor after a [write] of the first [count] bytes of [buf]. *)
Definition written (w : fd) (buf : list ascii) (count : Z) : fd :=
  mkfd (calls w ++ [(take (Z.to_nat count) buf,
                     answer (default Accept (head (script w))) count)])
       (tail (script w)).

Definition flushed (f : frame) : frame :=
  mkframe (character_tracker f) (result f) 0 (is_first_duplicate f)
    (written (stdout f) (result f) (output_idx f)).

(** The bytes of one entry of the report: the separator unless it is the
    first entry, then the character. *)
Definition entry (first : Z) (c : ascii) : list ascii :=
  (if first =? 0 then [","%char; " "%char] else []) ++ [c].

(** A return after a rejected write: the value is -1 and the rejected call
    is the last one logged, all earlier calls having succeeded. *)
Definition failed_last (rv : Z) (w : fd) : Prop :=
  rv = -1 /\ exists pre buf, calls w = pre ++ [(buf, -1)] /\ unfailed pre.

(** What holds of the locals at the head of the loop whatever the sink does. *)
Record sane (f : frame) : Prop := mksane {
  sane_bounds : bounds f;
  sane_log : unfailed (calls (stdout f));
  sane_nibbles : Forall nibbles_ok (character_tracker f)
}.

(** The locals on entry to the loop: the tracker zeroed, [result] holding
    [junk] with the opening brace stored at index 0. *)
Definition entry_frame (junk : list ascii) (out : fd) : frame :=
  pushed ["{"%char] (mkframe (replicate 64 0) junk 0 1 out).

(** The last three statements (lines 138-143): the closing brace and the
    newline are stored and the buffer is written out. *)
Definition closing (f : frame) : step frame :=
  let g := pushed ["}"%char; LF] f in
  Return (if answer (default Accept (head (script (stdout g)))) (output_idx g) =? -1
          then -1 else 0)
         (written (stdout g) (result g) (output_idx g)).

(** How a call may end: with 0 and no failed write, or with -1 right after
    the one failed write. *)
Definition settled (rv : Z) (w : fd) : Prop :=
  (rv = 0 /\ unfailed (calls w)) \/ failed_last rv w.

(** Two frames that differ at most in the part of [result] that has not
    been stored to since the last write. *)
Record sim (f g : frame) : Prop := mksim {
  sim_tracker : character_tracker f = character_tracker g;
  sim_idx : output_idx f = output_idx g;
  sim_first : is_first_duplicate f = is_first_duplicate g;
  sim_stdout : stdout f = stdout g;
  sim_pending : take (Z.to_nat (output_idx f)) (result f)
                = take (Z.to_nat (output_idx g)) (result g);
  sim_bounds_l : bounds f;
  sim_bounds_r : bounds g
}.

Definition sim_step (m n : step frame) : Prop :=
  match m, n with
  | Next f, Next g => sim f g
  | Return rv w, Return rv' w' => rv = rv' /\ w = w'
  | _, _ => False
  end.

(** The input with every character outside the alphabet removed. *)
Definition strip (mem : string) : string :=
  String.string_of_list_ascii (filter (fun c => printable c = true) (c_str mem)).

(** The alphabet in ascending order. *)
Definition alphabet : list ascii := (fun i => to_char (Z.of_nat i)) <$> seq 32 95.

(** A line of text as bytes: the characters of [s] and a newline. *)
Definition line (s : string) : list ascii := String.list_ascii_of_string s ++ [LF].

(** A control character, outside the alphabet. *)
Definition SOH : ascii := "001"%char.

(** A string with control characters around and between two letters. *)
Definition noisy_input : string :=
  String SOH (String "a" (String SOH (String "a" (String SOH EmptyString)))).

(** The tracker invariant in both forms: the byte formula, and bit by bit. *)
Definition duplicate_only_if_seen (f : frame) : Prop :=
  Forall nibbles_ok (character_tracker f) /\
  forall c, duplicate_bit f c = true -> seen_bit f c = true.

(** ** Vocabulary of the further properties *)

(** The bytes handed to [write], call after call, whether the sink took
    them or not. *)
Definition offered (w : fd) : list ascii := concat (fst <$> calls w).

(** A sink that may take less than it is offered but rejects nothing. *)
Definition lenient (sc : list reply) : Prop := Forall (fun r => r <> Reject) sc.

(** Calls that each carried a buffer with fewer than 4 bytes free. *)
Definition batched (cs : list (list ascii * Z)) : Prop :=
  Forall (fun c => (253 <= length c.1 <= 255)%nat) cs.

(** The tracker bits of the characters outside the alphabet are clear. *)
Definition clear_outside (f : frame) : Prop :=
  forall c, printable c = false -> seen_bit f c = false /\ duplicate_bit f c = false.

(** The output side of the locals at the head of the loop, for a sink that
    started with the script [sc] and an empty log: the bytes offered so far
    followed by the bytes waiting in [result] are the report so far for the
    entries [l], the sink has consumed one reply per call, and every call
    was made on a nearly full buffer. *)
Record logs (sc : list reply) (l : list ascii) (f : frame) : Prop := mklogs {
  l_text : offered (stdout f) ++ take (Z.to_nat (output_idx f)) (result f)
           = "{"%char :: comma_separated l;
  l_first : is_first_duplicate f = if l is [] then 1 else 0;
  l_script : script (stdout f) = drop (length (calls (stdout f))) sc;
  l_batched : batched (calls (stdout f))
}.

(** A return from inside the loop: the last call was answered by a
    rejection, and what was offered is the report so far for [l]. *)
Definition rejected (sc : list reply) (l : list ascii) (rv : Z) (w : fd) : Prop :=
  rv = -1 /\
  offered w = "{"%char :: comma_separated l /\
  calls w <> [] /\ batched (calls w) /\
  sc !! pred (length (calls w)) = Some Reject.

(** How a call on a non-empty string ends when the whole report is [l]. *)
Definition outcome (sc : list reply) (l : list ascii) (rv : Z) (w : fd) : Prop :=
  (exists pre c, calls w = pre ++ [c] /\ batched pre /\
                 (2 <= length c.1 <= 255)%nat) /\
  offered w `prefix_of` report l /\
  ((rv = 0 /\ offered w = report l) \/
   (rv = -1 /\ sc !! pred (length (calls w)) = Some Reject)).

(** A string with bytes after its terminator. *)
Definition padded_input : string :=
  String "a" (String "b" (String "a" (String NUL (String "b" (String "b" EmptyString))))).

(** * Properties *)

(** ** Machine arithmetic of the tracker *)

Section TrackerArithmetic.

Lemma uchar_range (c : ascii) : 0 <= uchar c < 256.
Proof.
  unfold uchar. pose proof (N_ascii_bounded c). lia.
Qed.

Lemma uchar_inj (c d : ascii) : uchar c = uchar d -> c = d.
Proof.
  unfold uchar. intros H.
  rewrite <- (ascii_N_embedding c), <- (ascii_N_embedding d).
  f_equal. lia.
Qed.

Lemma to_char_uchar (c : ascii) : to_char (uchar c) = c.
Proof.
  unfold to_char, uchar. rewrite N2Z.id. apply ascii_N_embedding.
Qed.

Lemma bit_position_eq (z : Z) : bit_position_of z = z mod 4.
Proof.
  unfold bit_position_of, uint8.
  change 3 with (Z.ones 2). rewrite Z.land_ones by lia.
  change (2 ^ 2) with 4.
  pose proof (Z.mod_pos_bound z 4). rewrite Z.mod_small; lia.
Qed.

Lemma byte_index_eq (z : Z) : 0 <= z < 256 -> byte_index_of z = z / 4.
Proof.
  intros Hz. unfold byte_index_of, uint8.
  rewrite Z.shiftr_div_pow2 by lia. change (2 ^ 2) with 4.
  apply Z.mod_small. split; [apply Z.div_pos; lia|].
  apply Z.div_lt_upper_bound; lia.
Qed.

Lemma bit_position_range (z : Z) : 0 <= bit_position_of z <= 3.
Proof.
  rewrite bit_position_eq. pose proof (Z.mod_pos_bound z 4). lia.
Qed.

Lemma byte_index_range (z : Z) : 0 <= z < 256 -> 0 <= byte_index_of z <= 63.
Proof.
  intros Hz. rewrite byte_index_eq by done.
  split; [apply Z.div_pos; lia|].
  assert (z / 4 < 64) by (apply Z.div_lt_upper_bound; lia). lia.
Qed.

(** A character is determined by its tracker byte and its bit. *)
Lemma tracker_slot_inj (c d : ascii) :
  byte_index_of (uchar c) = byte_index_of (uchar d) ->
  bit_position_of (uchar c) = bit_position_of (uchar d) ->
  c = d.
Proof.
  pose proof (uchar_range c). pose proof (uchar_range d).
  rewrite !byte_index_eq, !bit_position_eq by done. intros Hq Hr.
  apply uchar_inj.
  rewrite (Z.div_mod (uchar c) 4), (Z.div_mod (uchar d) 4) by lia.
  congruence.
Qed.

Lemma pow2_small (k : Z) : 0 <= k <= 7 -> 0 < 2 ^ k < 256.
Proof.
  intros Hk. assert (k = 0 \/ k = 1 \/ k = 2 \/ k = 3 \/ k = 4 \/ k = 5
                     \/ k = 6 \/ k = 7) as Hc by lia.
  destruct Hc as [->|[->|[->|[->|[->|[->|[->| ->]]]]]]]; simpl; lia.
Qed.

Lemma seen_mask_eq (z : Z) : seen_mask_of z = 2 ^ bit_position_of z.
Proof.
  unfold seen_mask_of, uint8. pose proof (bit_position_range z).
  rewrite Z.shiftl_1_l.
  pose proof (pow2_small (bit_position_of z)). apply Z.mod_small. lia.
Qed.

Lemma duplicate_mask_eq (z : Z) :
  duplicate_mask_of z = 2 ^ (bit_position_of z + 4).
Proof.
  unfold duplicate_mask_of, uint8. rewrite seen_mask_eq.
  pose proof (bit_position_range z).
  rewrite Z.shiftl_mul_pow2, <- Z.pow_add_r by lia.
  pose proof (pow2_small (bit_position_of z + 4)). apply Z.mod_small. lia.
Qed.

(** The test [(byte & mask) == 0] of lines 100 and 108 reads one bit. *)
Lemma land_pow2_eqb (b k : Z) :
  0 <= k -> (Z.land b (2 ^ k) =? 0) = negb (Z.testbit b k).
Proof.
  intros Hk. destruct (Z.testbit b k) eqn:Hb; simpl.
  - apply Z.eqb_neq. intros H0.
    assert (Z.testbit (Z.land b (2 ^ k)) k = true) as Ht.
    { rewrite Z.land_spec, Hb, Z.pow2_bits_true; done. }
    rewrite H0, Z.bits_0 in Ht. done.
  - apply Z.eqb_eq. apply Z.bits_inj'. intros n Hn.
    rewrite Z.land_spec, Z.bits_0, Z.pow2_bits_eqb by done.
    destruct (Z.eqb_spec k n) as [->|]; [by rewrite Hb | apply andb_false_r].
Qed.

(** The update [byte |= mask] of lines 103 and 111 sets one bit. *)
Lemma lor_pow2_testbit (b k j : Z) :
  0 <= k <= 7 -> 0 <= j <= 7 ->
  Z.testbit (uint8 (Z.lor b (2 ^ k))) j = Z.testbit b j || (k =? j).
Proof.
  intros Hk Hj. unfold uint8. change 256 with (2 ^ 8).
  rewrite Z.mod_pow2_bits_low by lia.
  rewrite Z.lor_spec, Z.pow2_bits_eqb by lia. done.
Qed.

Lemma uint8_range (z : Z) : 0 <= uint8 z < 256.
Proof. unfold uint8. apply Z.mod_pos_bound. lia. Qed.

End TrackerArithmetic.

(** ** Statements of the function body *)

Section Statements.

Lemma wp_bind {A B : Type} (m : step A) (k : A -> step B)
    (P : A -> Prop) (Q : B -> Prop) (R : Z -> fd -> Prop) :
  wp m P R -> (forall a, P a -> wp (k a) Q R) -> wp (m ≫= k) Q R.
Proof.
  destruct m as [a|rv w|]; simpl; auto.
Qed.

Lemma wp_mono {A : Type} (m : step A) (Q Q' : A -> Prop)
    (R R' : Z -> fd -> Prop) :
  wp m Q R -> (forall a, Q a -> Q' a) -> (forall rv w, R rv w -> R' rv w) ->
  wp m Q' R'.
Proof.
  destruct m as [a|rv w|]; simpl; auto.
Qed.

Lemma load_eq {A : Type} (a : list A) (i : Z) (v : A) :
  0 <= i -> a !! Z.to_nat i = Some v -> load a i = Next v.
Proof.
  intros Hi Hv. unfold load. apply lookup_lt_Some in Hv as Hlt.
  rewrite Hv.
  destruct (Z.leb_spec 0 i); [|lia].
  destruct (Z.ltb_spec i (Z.of_nat (length a))); [done|lia].
Qed.

Lemma store_eq {A : Type} (a : list A) (i : Z) (v : A) :
  0 <= i < Z.of_nat (length a) -> store a i v = Next (<[Z.to_nat i := v]> a).
Proof.
  intros Hi. unfold store.
  destruct (Z.leb_spec 0 i); [|lia].
  destruct (Z.ltb_spec i (Z.of_nat (length a))); [done|lia].
Qed.

Lemma sys_write_eq (w : fd) (buf : list ascii) (count : Z) :
  0 <= count <= Z.of_nat (length buf) ->
  sys_write w buf count
  = Next (answer (default Accept (head (script w))) count, written w buf count).
Proof.
  intros Hc. unfold sys_write, written.
  destruct (Z.leb_spec 0 count); [|lia].
  destruct (Z.leb_spec count (Z.of_nat (length buf))); [|lia].
  destruct (script w); done.
Qed.

Lemma push_eq (c : ascii) (f : frame) :
  length (result f) = 256%nat -> 0 <= output_idx f <= 255 ->
  push c f = Next (pushed [c] f).
Proof.
  intros Hl Hi. unfold push. rewrite store_eq by lia. simpl.
  unfold uint16. rewrite Z.mod_small by lia. done.
Qed.

Lemma flush_eq (f : frame) :
  length (result f) = 256%nat -> 0 <= output_idx f <= 256 ->
  flush f =
    if answer (default Accept (head (script (stdout f)))) (output_idx f) =? -1
    then Return (-1) (written (stdout f) (result f) (output_idx f))
    else Next (flushed f).
Proof.
  intros Hl Hi. unfold flush. rewrite sys_write_eq by lia. done.
Qed.

Lemma tracker_or_eq (k : Z) (c : ascii) (f : frame) :
  length (character_tracker f) = 64%nat -> 0 <= k <= 4 ->
  tracker_or (byte_index_of (uchar c)) (2 ^ (bit_position_of (uchar c) + k)) f
  = Next (with_tracker (marked k c (character_tracker f)) f).
Proof.
  intros Hl Hk. pose proof (byte_index_range _ (uchar_range c)) as Hb.
  unfold tracker_or, marked.
  destruct (lookup_lt_is_Some_2 (character_tracker f)
              (Z.to_nat (byte_index_of (uchar c)))) as [b Hb']; [lia|].
  rewrite (load_eq _ _ b) by (done || lia). simpl.
  rewrite store_eq by lia. simpl.
  by rewrite (list_lookup_total_correct _ _ _ Hb').
Qed.


Lemma pushed_fields (cs : list ascii) (f : frame) :
  character_tracker (pushed cs f) = character_tracker f /\
  is_first_duplicate (pushed cs f) = is_first_duplicate f /\
  stdout (pushed cs f) = stdout f /\
  output_idx (pushed cs f) = output_idx f + Z.of_nat (length cs) /\
  length (result (pushed cs f)) = length (result f).
Proof.
  revert f. induction cs as [|c cs IH]; intros f; simpl.
  - repeat split; lia.
  - destruct (IH (pushed [c] f)) as (Ht & Hf & Hs & Hi & Hl). simpl in *.
    rewrite Ht, Hf, Hs, Hi, Hl, length_insert. repeat split; lia.
Qed.

(** The bytes waiting in [result] after a run of stores. *)
Lemma pushed_pending (cs : list ascii) (f : frame) :
  0 <= output_idx f ->
  (Z.to_nat (output_idx f) + length cs <= length (result f))%nat ->
  take (Z.to_nat (output_idx (pushed cs f))) (result (pushed cs f))
  = take (Z.to_nat (output_idx f)) (result f) ++ cs.
Proof.
  revert f. induction cs as [|c cs IH]; intros f Hi Hl; simpl.
  - by rewrite app_nil_r.
  - fold (pushed cs (pushed [c] f)).
    rewrite IH; simpl; [|lia|rewrite length_insert; simpl in Hl; lia].
    replace (Z.to_nat (output_idx f + 1)) with (S (Z.to_nat (output_idx f))) by lia.
    simpl in Hl.
    rewrite (take_S_r _ _ c) by (apply list_lookup_insert_eq; lia).
    rewrite take_insert_ge by lia. by rewrite <- app_assoc.
Qed.

End Statements.

(** ** The loop body, statement by statement *)

(** Case analysis on a capacity test [output_idx f + n >= RESULT_BUFFER_SIZE]:
    [Hfull] when the buffer has to be written out first, [Hroom] otherwise. *)
Ltac on_capacity f n :=
  unfold RESULT_BUFFER_SIZE; rewrite Z.geb_leb;
  destruct (Z.leb_spec 256 (output_idx f + n)) as [Hfull|Hroom].

Section LoopBody.

Lemma entry_stores (c : ascii) (g : frame) :
  length (result g) = 256%nat -> 0 <= output_idx g <= 252 ->
  (g' ← (if is_first_duplicate g =? 0
         then g' ← push ","%char g; push " "%char g'
         else Next g);
   g'' ← push c g';
   Next (set_first 0 g''))
  = Next (set_first 0 (pushed (entry (is_first_duplicate g) c) g)).
Proof.
  intros Hl Hi. unfold entry.
  destruct (is_first_duplicate g =? 0).
  - rewrite push_eq by lia. simpl.
    rewrite push_eq by (simpl; (by rewrite length_insert) || lia). simpl.
    rewrite push_eq by (simpl; (by rewrite !length_insert) || lia). done.
  - simpl. rewrite push_eq by lia. done.
Qed.

(** Lines 113-126 in one equation. *)
Lemma emit_eq (ch : Z) (f : frame) :
  length (result f) = 256%nat -> 0 <= output_idx f <= 255 ->
  emit ch f =
    if output_idx f + 3 >=? RESULT_BUFFER_SIZE then
      if answer (default Accept (head (script (stdout f)))) (output_idx f) =? -1
      then Return (-1) (written (stdout f) (result f) (output_idx f))
      else Next (set_first 0
                   (pushed (entry (is_first_duplicate f) (to_char ch)) (flushed f)))
    else Next (set_first 0 (pushed (entry (is_first_duplicate f) (to_char ch)) f)).
Proof.
  intros Hl Hi. unfold emit. on_capacity f 3.
  - rewrite flush_eq by lia.
    destruct (_ =? -1); [done|].
    change (Next (flushed f) ≫= ?k) with (k (flushed f)).
    apply (entry_stores (to_char ch) (flushed f)); simpl; [done|lia].
  - change (Next f ≫= ?k) with (k f).
    apply (entry_stores (to_char ch) f); [done|lia].
Qed.

Lemma printable_range (c : ascii) :
  printable c = true <-> 32 <= uchar c <= 126.
Proof. unfold printable. lia. Qed.

(** Lines 84-129 in one equation. *)
Lemma loop_body_eq (c : ascii) (f : frame) :
  length (character_tracker f) = 64%nat ->
  loop_body c f =
    if printable c then
      if seen_bit f c then
        if duplicate_bit f c then Next f
        else emit (uchar c) (with_tracker (marked 4 c (character_tracker f)) f)
      else Next (with_tracker (marked 0 c (character_tracker f)) f)
    else Next f.
Proof.
  intros Hl. unfold loop_body, printable, seen_bit, duplicate_bit, tracker_bit.
  rewrite Z.geb_leb. destruct (_ && _); [|done].
  pose proof (byte_index_range _ (uchar_range c)) as Hb.
  pose proof (bit_position_range (uchar c)) as Hp.
  destruct (lookup_lt_is_Some_2 (character_tracker f)
              (Z.to_nat (byte_index_of (uchar c)))) as [b Hb']; [lia|].
  rewrite Hb', (load_eq _ _ b) by (done || lia).
  change (Next b ≫= ?k) with (k b). cbv beta.
  rewrite seen_mask_eq, duplicate_mask_eq, !land_pow2_eqb by lia.
  rewrite Z.add_0_r.
  destruct (Z.testbit b (bit_position_of (uchar c))); simpl.
  - rewrite land_pow2_eqb by lia.
    destruct (Z.testbit b (bit_position_of (uchar c) + 4)); simpl; [done|].
    rewrite (tracker_or_eq 4) by (done || lia). done.
  - rewrite <- (Z.add_0_r (bit_position_of (uchar c))) at 1.
    rewrite (tracker_or_eq 0) by (done || lia). done.
Qed.

(** Setting the bit [bit_position + k] of [c] changes that bit only. *)
Lemma tracker_bit_marked (t : list Z) (c d : ascii) (k j : Z) :
  length t = 64%nat -> k = 0 \/ k = 4 -> j = 0 \/ j = 4 ->
  tracker_bit (marked k c t) j (uchar d)
  = tracker_bit t j (uchar d) || (bool_decide (c = d) && (k =? j)).
Proof.
  intros Hl Hk Hj. unfold tracker_bit, marked.
  pose proof (byte_index_range _ (uchar_range c)) as Hbc.
  pose proof (byte_index_range _ (uchar_range d)) as Hbd.
  pose proof (bit_position_range (uchar c)) as Hpc.
  pose proof (bit_position_range (uchar d)) as Hpd.
  destruct (decide (byte_index_of (uchar c) = byte_index_of (uchar d))) as [Hi|Hi].
  - rewrite <- Hi, list_lookup_insert_eq by lia.
    destruct (lookup_lt_is_Some_2 t (Z.to_nat (byte_index_of (uchar c))))
      as [b Hb]; [lia|].
    rewrite (list_lookup_total_correct _ _ _ Hb), Hb.
    rewrite lor_pow2_testbit by lia. f_equal.
    case_bool_decide as Hcd.
    + subst d. simpl. destruct Hk, Hj; subst; simpl;
        [apply Z.eqb_refl | apply Z.eqb_neq; lia
        | apply Z.eqb_neq; lia | apply Z.eqb_refl].
    + simpl. apply Z.eqb_neq. intros Heq. apply Hcd.
      apply tracker_slot_inj; [done|lia].
  - rewrite list_lookup_insert_ne by lia.
    rewrite bool_decide_eq_false_2 by congruence.
    simpl. by rewrite orb_false_r.
Qed.

(** Characters outside the alphabet leave every local variable alone. *)
Lemma loop_body_skip (c : ascii) (f : frame) :
  printable c = false -> loop_body c f = Next f.
Proof.
  unfold loop_body, printable. rewrite Z.geb_leb. by intros ->.
Qed.

End LoopBody.

(** ** What the loop maintains whatever the sink answers *)

Section AnySink.

Lemma byte_bits_high (b n : Z) : 0 <= b < 256 -> 8 <= n -> Z.testbit b n = false.
Proof.
  intros Hb Hn. rewrite <- (Z.mod_small b (2 ^ 8)) by (simpl; lia).
  apply Z.mod_pow2_bits_high. lia.
Qed.

(** The byte formula says: bit [j + 4] only with bit [j]. *)
Lemma nibbles_ok_bits (b : Z) :
  0 <= b < 256 ->
  nibbles_ok b <->
  forall j, 0 <= j <= 3 -> Z.testbit b (j + 4) = true -> Z.testbit b j = true.
Proof.
  intros Hb. unfold nibbles_ok. change 15 with (Z.ones 4). split.
  - intros H j Hj Hbit.
    assert (Z.testbit (Z.land (Z.shiftr b 4) (Z.land b (Z.ones 4))) j = true) as Ht.
    { rewrite H, Z.shiftr_spec by lia. done. }
    rewrite !Z.land_spec in Ht. destruct (Z.testbit b j); [done|].
    by rewrite andb_false_l, andb_false_r in Ht.
  - intros H. apply Z.bits_inj'. intros n Hn.
    rewrite !Z.land_spec, Z.shiftr_spec, Z.testbit_ones_nonneg by lia.
    destruct (Z.testbit b (n + 4)) eqn:Hbit; [|done]. simpl.
    destruct (Z.ltb_spec n 4) as [Hlt|Hge].
    + rewrite H by (done || lia). done.
    + rewrite byte_bits_high in Hbit by lia. done.
Qed.

Lemma marked_length (k : Z) (c : ascii) (t : list Z) :
  length (marked k c t) = length t.
Proof. apply length_insert. Qed.

Lemma marked_bytes (k : Z) (c : ascii) (t : list Z) :
  Forall (fun b => 0 <= b < 256) t -> Forall (fun b => 0 <= b < 256) (marked k c t).
Proof.
  intros Ht. apply Forall_insert; [done|]. apply uint8_range.
Qed.

(** Marking keeps the byte formula, provided the duplicate bit is set only
    when the seen bit already is. *)
Lemma marked_nibbles (k : Z) (c : ascii) (t : list Z) :
  length t = 64%nat -> Forall (fun b => 0 <= b < 256) t ->
  k = 0 \/ (k = 4 /\ tracker_bit t 0 (uchar c) = true) ->
  Forall nibbles_ok t -> Forall nibbles_ok (marked k c t).
Proof.
  intros Hl Hr Hk Hn. unfold marked.
  pose proof (byte_index_range _ (uchar_range c)) as Hbi.
  pose proof (bit_position_range (uchar c)) as Hp.
  destruct (lookup_lt_is_Some_2 t (Z.to_nat (byte_index_of (uchar c))))
    as [b Hb]; [lia|].
  rewrite (list_lookup_total_correct _ _ _ Hb).
  apply Forall_insert; [done|].
  pose proof (proj1 (Forall_lookup _ _) Hr _ _ Hb) as Hbr. simpl in Hbr.
  pose proof (proj1 (Forall_lookup _ _) Hn _ _ Hb) as Hbn. simpl in Hbn.
  apply nibbles_ok_bits; [apply uint8_range|].
  rewrite nibbles_ok_bits in Hbn by done.
  intros j Hj. rewrite !lor_pow2_testbit by lia.
  intros [Hold|Hnew]%orb_true_iff.
  - rewrite Hbn by done. done.
  - apply Z.eqb_eq in Hnew. destruct Hk as [->|[-> Hseen]]; [lia|].
    unfold tracker_bit in Hseen. rewrite Hb, Z.add_0_r in Hseen.
    assert (j = bit_position_of (uchar c)) as -> by lia.
    by rewrite Hseen.
Qed.

Lemma unfailed_snoc (cs : list (list ascii * Z)) (buf : list ascii) (r : Z) :
  unfailed cs -> r <> -1 -> unfailed (cs ++ [(buf, r)]).
Proof.
  intros Hcs Hr. apply Forall_app. split; [done|].
  apply Forall_singleton. done.
Qed.

Lemma pushed_bounds (cs : list ascii) (f : frame) :
  bounds f -> output_idx f + Z.of_nat (length cs) <= 255 -> bounds (pushed cs f).
Proof.
  intros [Ht Hb Hr Hi] Hroom.
  destruct (pushed_fields cs f) as (Et & _ & _ & Ei & El).
  split; rewrite ?Et, ?Ei, ?El; (done || lia).
Qed.

Lemma entry_length (first : Z) (c : ascii) : (1 <= length (entry first c) <= 3)%nat.
Proof. unfold entry. destruct (first =? 0); simpl; lia. Qed.

(** Lines 113-126 keep the tracker, and stop only on a rejected write. *)
Lemma emit_sane (ch : Z) (f : frame) :
  sane f ->
  wp (emit ch f)
     (fun f' => sane f' /\ character_tracker f' = character_tracker f)
     failed_last.
Proof.
  intros [Hb Hlog Hnib]. pose proof Hb as [Ht Hby Hr Hi].
  rewrite emit_eq by done.
  pose proof (entry_length (is_first_duplicate f) (to_char ch)) as Hlen.
  on_capacity f 3.
  - destruct (Z.eqb_spec (answer (default Accept (head (script (stdout f))))
                            (output_idx f)) (-1)) as [Hrej|Hacc]; simpl.
    + split; [done|]. eexists _, _. split; [|exact Hlog].
      unfold written. simpl. by rewrite Hrej.
    + set (g := flushed f).
      assert (bounds g) as Hg by (split; simpl; (done || lia)).
      destruct (pushed_fields (entry (is_first_duplicate f) (to_char ch)) g)
        as (Et & Ef & Es & Ei & El).
      split; [|simpl; by rewrite Et].
      split; simpl.
      * pose proof (pushed_bounds (entry (is_first_duplicate f) (to_char ch)) g Hg)
          as [? ? ? ?]; [simpl; lia|]. split; done.
      * rewrite Es. simpl. by apply unfailed_snoc.
      * by rewrite Et.
  - simpl.
    destruct (pushed_fields (entry (is_first_duplicate f) (to_char ch)) f)
      as (Et & Ef & Es & Ei & El).
    split; [|by rewrite Et].
    split; simpl.
    + pose proof (pushed_bounds (entry (is_first_duplicate f) (to_char ch)) f Hb)
        as [? ? ? ?]; [lia|]. split; done.
    + by rewrite Es.
    + by rewrite Et.
Qed.

Lemma with_tracker_sane (k : Z) (c : ascii) (f : frame) :
  sane f -> k = 0 \/ (k = 4 /\ seen_bit f c = true) ->
  sane (with_tracker (marked k c (character_tracker f)) f).
Proof.
  intros [[Ht Hby Hr Hi] Hlog Hnib] Hk. split; [split|..]; simpl; try done.
  - by rewrite marked_length.
  - by apply marked_bytes.
  - by apply marked_nibbles.
Qed.

(** One iteration keeps [sane], and stops only on a rejected write. *)
Lemma loop_body_sane (c : ascii) (f : frame) :
  sane f -> wp (loop_body c f) sane failed_last.
Proof.
  intros Hs. pose proof (sane_bounds _ Hs) as [Ht _ _ _].
  rewrite loop_body_eq by done.
  destruct (printable c); [|done].
  destruct (seen_bit f c) eqn:Hseen.
  - destruct (duplicate_bit f c); [done|].
    eapply wp_mono; [apply emit_sane, (with_tracker_sane 4); auto|..].
    + by intros f' [Hf' _].
    + done.
  - simpl. apply (with_tracker_sane 0); auto.
Qed.

Lemma scan_sane (mem : string) (f : frame) :
  sane f -> wp (scan mem f) sane failed_last.
Proof.
  revert f. induction mem as [|c rest IH]; intros f Hs; simpl; [done|].
  destruct (Ascii.eqb c NUL); [done|].
  eapply wp_bind; [by apply loop_body_sane|]. intros f' Hf'. by apply IH.
Qed.

Lemma entry_frame_sane (junk : list ascii) (out : fd) :
  length junk = 256%nat -> unfailed (calls out) -> sane (entry_frame junk out).
Proof.
  intros Hj Hout.
  assert (Forall (fun b => 0 <= b < 256) (replicate 64 0)) as Hr
    by (apply Forall_replicate; lia).
  assert (Forall nibbles_ok (replicate 64 0)) as Hn
    by (by apply Forall_replicate).
  split; [split|..]; try done.
  simpl. by rewrite length_insert.
Qed.

End AnySink.

(** ** The whole call, whatever the sink answers *)

Section WholeCall.

(** Lines 132-143 in one equation. *)
Lemma finish_eq (f : frame) :
  length (result f) = 256%nat -> 0 <= output_idx f <= 255 ->
  finish f =
    if output_idx f + 2 >=? RESULT_BUFFER_SIZE then
      if answer (default Accept (head (script (stdout f)))) (output_idx f) =? -1
      then Return (-1) (written (stdout f) (result f) (output_idx f))
      else closing (flushed f)
    else closing f.
Proof.
  intros Hl Hi.
  assert (forall g, length (result g) = 256%nat -> 0 <= output_idx g <= 253 ->
            (g1 ← push "}"%char g; g2 ← push LF g1;
             rw ← sys_write (stdout g2) (result g2) (output_idx g2);
             if rw.1 =? -1 then Return (-1) rw.2 else Return 0 rw.2)
            = closing g) as Hclose.
  { intros g Hgl Hgi. rewrite push_eq by lia. simpl.
    rewrite push_eq by (simpl; (by rewrite length_insert) || lia). simpl.
    rewrite sys_write_eq by (simpl; rewrite !length_insert; lia). simpl.
    unfold closing. simpl. by destruct (_ =? -1). }
  unfold finish. on_capacity f 2.
  - rewrite flush_eq by lia. destruct (_ =? -1); [done|].
    apply (Hclose (flushed f)); simpl; [done|lia].
  - apply (Hclose f); [done|lia].
Qed.

Lemma closing_settled (f : frame) :
  unfailed (calls (stdout f)) -> wp (closing f) (fun _ => False) settled.
Proof.
  intros Hlog. unfold closing.
  set (g := pushed ["}"%char; LF] f).
  assert (stdout g = stdout f) as Es by apply pushed_fields.
  rewrite Es. unfold wp.
  destruct (Z.eqb_spec (answer (default Accept (head (script (stdout f))))
              (output_idx g)) (-1)) as [Hrej|Hacc].
  - right. split; [done|]. eexists _, _. split; [|exact Hlog].
    unfold written. cbn [calls]. by rewrite Hrej.
  - left. split; [done|]. unfold written. cbn [calls]. by apply unfailed_snoc.
Qed.

Lemma finish_sane (f : frame) :
  sane f -> wp (finish f) (fun _ => False) settled.
Proof.
  intros [[Ht Hby Hr Hi] Hlog Hnib]. rewrite finish_eq by done.
  destruct (_ >=? _); [|by apply closing_settled].
  destruct (Z.eqb_spec (answer (default Accept (head (script (stdout f))))
              (output_idx f)) (-1)) as [Hrej|Hacc].
  - right. split; [done|]. eexists _, _. split; [|exact Hlog].
    simpl. by rewrite Hrej.
  - apply closing_settled. simpl. by apply unfailed_snoc.
Qed.

(** In a settled log a failed write can only be the last entry. *)
Lemma failed_call_is_last (rv : Z) (w : fd) (i : nat) (buf : list ascii) :
  settled rv w \/ (rv = -1 /\ unfailed (calls w)) ->
  calls w !! i = Some (buf, -1) ->
  rv = -1 /\ S i = length (calls w) /\ unfailed (take i (calls w)).
Proof.
  intros Hs Hi.
  assert (~ unfailed (calls w)) as Hbad.
  { intros Hu. by apply (proj1 (Forall_lookup _ _) Hu _ _ Hi). }
  destruct Hs as [[[_ Hu]|[-> (pre & b & Hc & Hu)]]|[_ Hu]]; [done| |done].
  split; [done|]. rewrite Hc in Hi |- *. rewrite length_app. simpl.
  destruct (decide (i < length pre)%nat) as [Hlt|Hge].
  - rewrite lookup_app_l in Hi by done.
    by pose proof (proj1 (Forall_lookup _ _) Hu _ _ Hi).
  - apply lookup_lt_Some in Hi. rewrite length_app in Hi. simpl in Hi.
    assert (i = length pre) as -> by lia.
    split; [lia|]. by rewrite take_app_length.
Qed.

(** What the array [result] holds on entry; only its size is known. *)
Context (junk : list ascii) (Hjunk : length junk = 256%nat).

(** The function as its two paths. *)
Lemma find_duplicates_from_eq (str : option string) (out : fd) :
  find_duplicates_from junk str out =
    if is_null_or_empty str then Some (-1, written out diagnostic 31)
    else match scan (default EmptyString str) (entry_frame junk out) ≫= finish with
         | Return rv w => Some (rv, w)
         | Next _ | Trap => None
         end.
Proof.
  unfold find_duplicates_from.
  destruct (is_null_or_empty str).
  - rewrite sys_write_eq by (simpl; lia). simpl. by destruct (_ =? -1).
  - rewrite push_eq by (simpl; lia). done.
Qed.


(** Every call returns, and it ends in one of the two ways of [settled],
    except that the diagnostic path returns -1 even after a good write. *)
Lemma find_duplicates_from_settled (str : option string) (sc : list reply) :
  exists rv w, find_duplicates_from junk str (fresh sc) = Some (rv, w) /\
    (settled rv w \/ (rv = -1 /\ unfailed (calls w))).
Proof.
  rewrite find_duplicates_from_eq.
  destruct (is_null_or_empty str).
  - eexists _, _. split; [done|].
    destruct (Z.eqb_spec (answer (default Accept (head sc)) 31) (-1)) as [Hrej|Hacc].
    + left. right. split; [done|]. exists [], (take 31 diagnostic).
      split; [|by apply Forall_nil]. simpl. by rewrite Hrej.
    + right. split; [done|]. by apply Forall_singleton.
  - pose proof (scan_sane (default EmptyString str) _
                  (entry_frame_sane junk (fresh sc) Hjunk (Forall_nil_2 _))) as Hscan.
    apply (wp_mono _ sane sane failed_last settled) in Hscan;
      [|done|by right].
    pose proof (wp_bind _ finish _ (fun _ => False) settled Hscan finish_sane) as Hrun.
    destruct (scan _ _ ≫= finish) as [?|rv w|]; [done| |done].
    eexists _, _. split; [done|]. by left.
Qed.

End WholeCall.

(** ** What the tracker records *)

Section Tracking.

Lemma occurrences_snoc (c d : ascii) (l : list ascii) :
  occurrences c (l ++ [d]) = (occurrences c l + if decide (d = c) then 1 else 0)%nat.
Proof.
  unfold occurrences. rewrite filter_app, length_app. f_equal.
  rewrite filter_cons, filter_nil. by destruct (decide (d = c)).
Qed.

Lemma occurrences_app (c : ascii) (l k : list ascii) :
  occurrences c (l ++ k) = (occurrences c l + occurrences c k)%nat.
Proof. unfold occurrences. by rewrite filter_app, length_app. Qed.

Lemma iff_bool_decide (b : bool) (P : Prop) `{Decision P} :
  (b = true <-> P) -> b = bool_decide P.
Proof.
  intros Hb. case_bool_decide as HP.
  - by apply Hb.
  - destruct b; [|done]. exfalso. by apply HP, Hb.
Qed.

Lemma tracks_entry (junk : list ascii) (out : fd) : tracks [] (entry_frame junk out).
Proof.
  intros c _. unfold seen_bit, duplicate_bit, tracker_bit, entry_frame.
  destruct (pushed_fields ["{"%char] (mkframe (replicate 64 0) junk 0 1 out))
    as (-> & _). cbn [character_tracker].
  pose proof (byte_index_range _ (uchar_range c)) as Hb.
  rewrite lookup_replicate_2 by lia. rewrite !Z.bits_0.
  unfold occurrences. simpl. split; split; (done || lia).
Qed.

(** The tracker after one iteration, read off [loop_body_eq]. *)
Lemma tracks_step (before : list ascii) (c : ascii) (f f' : frame) :
  length (character_tracker f) = 64%nat ->
  tracks before f ->
  character_tracker f' =
    (if printable c then
       if seen_bit f c then
         if duplicate_bit f c then character_tracker f
         else marked 4 c (character_tracker f)
       else marked 0 c (character_tracker f)
     else character_tracker f) ->
  tracks (before ++ [c]) f'.
Proof.
  intros Hl Ht Hf' d Hd.
  pose proof (iff_bool_decide _ _ (proj1 (Ht d Hd))) as Hs.
  pose proof (iff_bool_decide _ _ (proj2 (Ht d Hd))) as Hdup.
  unfold seen_bit, duplicate_bit in *. rewrite Hf', !occurrences_snoc.
  destruct (printable c) eqn:Hc.
  - pose proof (iff_bool_decide _ _ (proj1 (Ht c Hc))) as Hsc.
    pose proof (iff_bool_decide _ _ (proj2 (Ht c Hc))) as Hdc.
    unfold seen_bit, duplicate_bit in *. rewrite Hsc, Hdc.
    destruct (decide (c = d)) as [->|Hne];
      repeat case_bool_decide; simpl;
      rewrite ?tracker_bit_marked by auto; rewrite ?Hs, ?Hdup;
      repeat case_bool_decide; simpl;
      split; split; intros; (done || lia).
  - destruct (decide (c = d)) as [->|]; [congruence|].
    rewrite Hs, Hdup. repeat case_bool_decide; split; split; intros; (done || lia).
Qed.

End Tracking.

(** ** The report *)

Section Report.

Lemma comma_separated_snoc (l : list ascii) (c : ascii) :
  comma_separated (l ++ [c])
  = comma_separated l ++ entry (if l is [] then 1 else 0) c.
Proof.
  induction l as [|a l IH]; [done|].
  destruct l as [|b l]; [done|].
  change (comma_separated ((a :: b :: l) ++ [c]))
    with (a :: ","%char :: " "%char :: comma_separated ((b :: l) ++ [c])).
  rewrite IH. done.
Qed.

(** Membership in the list of second occurrences. *)
Lemma second_occurrences_from_In (before s : list ascii) (c : ascii) :
  c ∈ second_occurrences_from before s <->
  printable c = true /\ (occurrences c before <= 1)%nat /\
  (2 <= occurrences c (before ++ s))%nat.
Proof.
  revert before. induction s as [|a s IH]; intros before; simpl.
  - rewrite app_nil_r, elem_of_nil. lia.
  - rewrite elem_of_app, IH, <- app_assoc. simpl.
    rewrite occurrences_snoc.
    pose proof (occurrences_app c before (a :: s)) as Happ.
    assert (occurrences c (a :: s)
            = ((if decide (a = c) then 1 else 0) + occurrences c s)%nat) as Hcons.
    { unfold occurrences. rewrite filter_cons. by destruct (decide (a = c)). }
    pose proof (occurrences_app c (before ++ [a]) s) as Happ'.
    rewrite occurrences_snoc in Happ'. rewrite <- app_assoc in Happ'. simpl in Happ'.
    destruct (decide (a = c)) as [->|Hne].
    + destruct (printable c) eqn:Hp; simpl;
        [destruct (Nat.eqb_spec (occurrences c before) 1) as [H1|H1]|];
        rewrite ?list_elem_of_singleton, ?elem_of_nil; intuition (done || lia).
    + assert (c ∉ (if printable a && (occurrences a before =? 1)%nat then [a] else []))
        as Hnot.
      { destruct (_ && _); [|apply not_elem_of_nil].
        rewrite list_elem_of_singleton. congruence. }
      rewrite Nat.add_0_r. tauto.
Qed.

Lemma second_occurrences_from_NoDup (before s : list ascii) :
  NoDup (second_occurrences_from before s).
Proof.
  revert before. induction s as [|a s IH]; intros before; simpl.
  - apply NoDup_nil_2.
  - apply NoDup_app. split; [|split; [|apply IH]].
    + destruct (_ && _); [apply NoDup_singleton | apply NoDup_nil_2].
    + intros c Hc Hin. apply second_occurrences_from_In in Hin as (_ & Hle & _).
      rewrite occurrences_snoc in Hle.
      destruct (printable a && (occurrences a before =? 1)%nat) eqn:Hcond;
        [|by apply elem_of_nil in Hc].
      apply list_elem_of_singleton in Hc as ->.
      apply andb_true_iff in Hcond as [_ H1%Nat.eqb_eq].
      rewrite decide_True in Hle by done. lia.
Qed.

End Report.

(** ** The stream of bytes when the sink accepts every write *)

Section AcceptingSink.

Lemma accepting_head (sc : list reply) :
  accepting sc -> default Accept (head sc) = Accept.
Proof. intros Hsc. destruct sc as [|r sc]; [done|]. by inversion Hsc. Qed.

Lemma accepting_tail (sc : list reply) : accepting sc -> accepting (tail sc).
Proof. intros Hsc. destruct sc as [|r sc]; [done|]. by inversion Hsc. Qed.

Lemma delivered_written (w : fd) (buf : list ascii) (n : Z) :
  accepting (script w) -> 0 <= n ->
  delivered (written w buf n) = delivered w ++ take (Z.to_nat n) buf.
Proof.
  intros Hsc Hn. unfold delivered, written. cbn [calls].
  rewrite fmap_app, concat_app, accepting_head by done. simpl.
  unfold taken. simpl. destruct (Z.eqb_spec n (-1)); [lia|].
  by rewrite app_nil_r, take_take, Nat.min_id.
Qed.

Lemma streams_flushed (l : list ascii) (f : frame) :
  0 <= output_idx f -> streams l f -> streams l (flushed f).
Proof.
  intros Hi [Hsc Htext Hfirst]. split; simpl.
  - by apply accepting_tail.
  - rewrite delivered_written by done. by rewrite take_0, app_nil_r.
  - done.
Qed.

Lemma streams_entry (l : list ascii) (c : ascii) (f : frame) :
  length (result f) = 256%nat -> 0 <= output_idx f <= 252 ->
  streams l f ->
  streams (l ++ [c]) (set_first 0 (pushed (entry (is_first_duplicate f) c) f)).
Proof.
  intros Hl Hi [Hsc Htext Hfirst].
  pose proof (entry_length (is_first_duplicate f) c) as Hlen.
  destruct (pushed_fields (entry (is_first_duplicate f) c) f) as (_ & _ & Es & _ & _).
  split; simpl.
  - by rewrite Es.
  - rewrite Es, pushed_pending by lia.
    rewrite app_assoc, Htext, comma_separated_snoc, Hfirst. done.
  - by destruct l.
Qed.

Lemma streams_with_tracker (l : list ascii) (t : list Z) (f : frame) :
  streams l f -> streams l (with_tracker t f).
Proof. intros [? ? ?]. by split. Qed.

Lemma tracker_after_entry (v : Z) (cs : list ascii) (f : frame) :
  character_tracker (set_first v (pushed cs f)) = character_tracker f.
Proof. simpl. apply pushed_fields. Qed.

(** One iteration with an accepting sink: the report grows by the
    character exactly when this is its second occurrence. *)
Lemma loop_body_accepting (before l : list ascii) (c : ascii) (f : frame) :
  sane f -> tracks before f -> streams l f ->
  wp (loop_body c f)
     (fun f' => sane f' /\ tracks (before ++ [c]) f' /\
                streams (l ++ (if printable c && (occurrences c before =? 1)%nat
                               then [c] else [])) f')
     (fun _ _ => False).
Proof.
  intros Hs Ht Hst. pose proof (sane_bounds _ Hs) as [Hlt Hby Hlr Hi].
  pose proof (loop_body_sane c f Hs) as Hsane.
  pose proof (tracks_step before c f) as Hstep.
  rewrite loop_body_eq in Hsane |- * by done.
  destruct (printable c) eqn:Hc; simpl;
    [|rewrite app_nil_r; split; [done|split; [by apply Hstep|done]]].
  destruct (Ht c Hc) as [Hseen Hdup].
  destruct (seen_bit f c) eqn:Es; [destruct (duplicate_bit f c) eqn:Ed|].
  - assert ((occurrences c before =? 1)%nat = false) as ->
      by (apply Nat.eqb_neq; intros E1; rewrite E1 in Hdup;
          destruct Hdup as [Hd _]; specialize (Hd eq_refl); lia).
    rewrite app_nil_r. split; [done|split; [by apply Hstep|done]].
  - assert ((occurrences c before =? 1)%nat = true) as ->.
    { apply Nat.eqb_eq.
      assert (1 <= occurrences c before)%nat by (by apply Hseen).
      assert (~ (2 <= occurrences c before)%nat)
        by (intros Hge; apply Hdup in Hge; congruence).
      lia. }
    set (g := with_tracker (marked 4 c (character_tracker f)) f) in *.
    assert (streams l g) as Hg by (by apply streams_with_tracker).
    rewrite emit_eq in Hsane |- * by done.
    pose proof (streams_entry l (to_char (uchar c)) g Hlr) as Hpush.
    pose proof (streams_entry l (to_char (uchar c)) (flushed g) Hlr) as Hpushf.
    rewrite to_char_uchar in *.
    unfold RESULT_BUFFER_SIZE in *. rewrite Z.geb_leb in *.
    destruct (Z.leb_spec 256 (output_idx g + 3)) as [Hfull|Hroom].
    + rewrite (accepting_head _ (s_script _ _ Hg)) in *. simpl answer in *.
      destruct (Z.eqb_spec (output_idx f) (-1)) as [Hneg|_]; [lia|].
      cbn [wp] in Hsane |- *. split; [done|split].
      * apply Hstep; [done..|]. by rewrite tracker_after_entry.
      * apply Hpushf; [simpl; lia|]. apply streams_flushed; [simpl; lia|done].
    + cbn [wp] in Hsane |- *. split; [done|split].
      * apply Hstep; [done..|]. by rewrite tracker_after_entry.
      * apply Hpush; [simpl in *; lia|done].
  - assert ((occurrences c before =? 1)%nat = false) as ->
      by (apply Nat.eqb_neq; intros E1; rewrite E1 in Hseen;
          destruct Hseen as [_ Hd]; specialize (Hd (le_n _)); congruence).
    rewrite app_nil_r. simpl in Hsane |- *. split; [done|split].
    + by apply Hstep.
    + by apply streams_with_tracker.
Qed.

Lemma scan_accepting (mem : string) (before l : list ascii) (f : frame) :
  sane f -> tracks before f -> streams l f ->
  wp (scan mem f)
     (fun f' => sane f' /\ tracks (before ++ c_str mem) f' /\
                streams (l ++ second_occurrences_from before (c_str mem)) f')
     (fun _ _ => False).
Proof.
  revert before l f. induction mem as [|c rest IH]; intros before l f Hs Ht Hst; simpl.
  - by rewrite !app_nil_r.
  - destruct (Ascii.eqb c NUL); simpl; [by rewrite !app_nil_r|].
    eapply wp_bind; [by apply (loop_body_accepting before l)|].
    intros f' (Hs' & Ht' & Hst'). cbv beta.
    eapply wp_mono; [by apply (IH _ _ _ Hs' Ht' Hst')| |done].
    intros f'' (? & ? & ?). by rewrite <- !app_assoc in *.
Qed.

Lemma closing_accepting (l : list ascii) (f : frame) :
  length (result f) = 256%nat -> 0 <= output_idx f <= 253 -> streams l f ->
  exists w, closing f = Return 0 w /\ delivered w = report l.
Proof.
  intros Hl Hi [Hsc Htext Hfirst]. unfold closing.
  set (g := pushed ["}"%char; LF] f).
  destruct (pushed_fields ["}"%char; LF] f) as (_ & _ & Es & Ei & _).
  fold g in Es, Ei. simpl length in Ei.
  rewrite Es, accepting_head by done. cbn [answer].
  destruct (Z.eqb_spec (output_idx g) (-1)) as [Hneg|_]; [lia|].
  eexists. split; [done|].
  rewrite delivered_written by (done || lia).
  unfold g. rewrite pushed_pending by (simpl; lia).
  rewrite app_assoc, Htext. done.
Qed.

Lemma finish_accepting (l : list ascii) (f : frame) :
  sane f -> streams l f ->
  exists w, finish f = Return 0 w /\ delivered w = report l.
Proof.
  intros Hs Hst. pose proof (sane_bounds _ Hs) as [Hlt Hby Hlr Hi].
  rewrite finish_eq by done.
  on_capacity f 2.
  - rewrite (accepting_head _ (s_script _ _ Hst)). cbn [answer].
    destruct (Z.eqb_spec (output_idx f) (-1)) as [Hneg|_]; [lia|].
    apply closing_accepting; simpl; [done|lia|].
    apply streams_flushed; [lia|done].
  - apply closing_accepting; [done|lia|done].
Qed.

Lemma streams_entry_frame (junk : list ascii) (sc : list reply) :
  length junk = 256%nat -> accepting sc -> streams [] (entry_frame junk (fresh sc)).
Proof.
  intros Hj Hsc. split; simpl; try done.
  destruct junk; [done|]. done.
Qed.

Lemma is_null_or_empty_c_str (mem : string) :
  is_null_or_empty (Some mem) = bool_decide (c_str mem = []).
Proof.
  destruct mem as [|c rest]; simpl; [done|].
  destruct (Ascii.eqb c NUL); done.
Qed.

(** The report of a call on a non-empty string with an accepting sink. *)
Lemma find_duplicates_from_report (junk : list ascii) (mem : string)
    (sc : list reply) :
  length junk = 256%nat -> accepting sc -> c_str mem <> [] ->
  exists w, find_duplicates_from junk (Some mem) (fresh sc) = Some (0, w) /\
            delivered w = report (second_occurrences (c_str mem)).
Proof.
  intros Hj Hsc Hne. rewrite find_duplicates_from_eq by done.
  rewrite is_null_or_empty_c_str, bool_decide_eq_false_2 by done. simpl default.
  pose proof (scan_accepting mem [] [] _
                (entry_frame_sane junk (fresh sc) Hj (Forall_nil_2 _))
                (tracks_entry junk (fresh sc))
                (streams_entry_frame junk sc Hj Hsc)) as Hscan.
  destruct (scan mem _) as [f| |]; simpl in Hscan; [|done..].
  destruct Hscan as (Hs & _ & Hst).
  destruct (finish_accepting _ f Hs Hst) as (w & Hfin & Hw).
  exists w. change (Next f ≫= finish) with (finish f). by rewrite Hfin.
Qed.

End AcceptingSink.

(** ** The content of [result] on entry does not matter *)

Section Uninitialised.

Lemma sim_step_bind (m n : step frame) (k k' : frame -> step frame) :
  sim_step m n -> (forall f g, sim f g -> sim_step (k f) (k' g)) ->
  sim_step (m ≫= k) (n ≫= k').
Proof.
  destruct m as [f|rv w|], n as [g|rv' w'|]; simpl; auto; done.
Qed.

Lemma sim_pushed (cs : list ascii) (f g : frame) :
  sim f g -> output_idx f + Z.of_nat (length cs) <= 255 ->
  sim (pushed cs f) (pushed cs g).
Proof.
  intros [Et Ei Ef Es Ep Hf Hg] Hroom.
  pose proof Hf as [_ _ Hlf Hif]. pose proof Hg as [_ _ Hlg Hig].
  destruct (pushed_fields cs f) as (Et1 & Ef1 & Es1 & Ei1 & _).
  destruct (pushed_fields cs g) as (Et2 & Ef2 & Es2 & Ei2 & _).
  split; [congruence..| |by apply pushed_bounds|apply pushed_bounds; [done|lia]].
  rewrite !pushed_pending by lia. by rewrite Ep.
Qed.

Lemma sim_written (f g : frame) :
  sim f g ->
  written (stdout f) (result f) (output_idx f)
  = written (stdout g) (result g) (output_idx g).
Proof.
  intros [Et Ei Ef Es Ep Hf Hg]. unfold written. by rewrite Ep, Es, Ei.
Qed.

Lemma sim_flushed (f g : frame) : sim f g -> sim (flushed f) (flushed g).
Proof.
  intros Hs. pose proof (sim_written f g Hs) as Hw.
  destruct Hs as [Et Ei Ef Es Ep [? ? ? ?] [? ? ? ?]].
  split; simpl; try done; split; simpl; (done || lia).
Qed.

Lemma sim_set_first (v : Z) (f g : frame) :
  sim f g -> sim (set_first v f) (set_first v g).
Proof.
  intros [Et Ei Ef Es Ep [? ? ? ?] [? ? ? ?]]. split; simpl; try done; by split.
Qed.

Lemma sim_with_tracker (t : list Z) (f g : frame) :
  length t = 64%nat -> Forall (fun b => 0 <= b < 256) t ->
  sim f g -> sim (with_tracker t f) (with_tracker t g).
Proof.
  intros Hl Hr [Et Ei Ef Es Ep [? ? ? ?] [? ? ? ?]].
  split; simpl; try done; by split.
Qed.

Lemma sim_emit (ch : Z) (f g : frame) : sim f g -> sim_step (emit ch f) (emit ch g).
Proof.
  intros Hs. pose proof (sim_written f g Hs) as Hw.
  pose proof (sim_flushed f g Hs) as Hfl.
  pose proof Hs as [Et Ei Ef Es Ep Hf Hg].
  pose proof Hf as [_ _ Hlf Hif]. pose proof Hg as [_ _ Hlg Hig].
  rewrite !emit_eq by done. rewrite <- Hw, <- Ei, <- Es, <- Ef.
  pose proof (entry_length (is_first_duplicate f) (to_char ch)) as Hlen.
  on_capacity f 3.
  - destruct (_ =? -1); [done|]. simpl.
    apply sim_set_first, sim_pushed; [done|simpl; lia].
  - simpl. apply sim_set_first, sim_pushed; [done|lia].
Qed.

Lemma sim_loop_body (c : ascii) (f g : frame) :
  sim f g -> sim_step (loop_body c f) (loop_body c g).
Proof.
  intros Hs. pose proof Hs as [Et Ei Ef Es Ep Hf Hg].
  pose proof Hf as [Htf _ _ _]. pose proof Hg as [Htg _ _ _].
  pose proof Hf as [_ Hbf _ _].
  rewrite !loop_body_eq by done. unfold seen_bit, duplicate_bit. rewrite <- Et.
  destruct (printable c); [|done].
  destruct (tracker_bit _ 0 _); [destruct (tracker_bit _ 4 _)|]; [done|..].
  - apply sim_emit, sim_with_tracker;
      [by rewrite marked_length|by apply marked_bytes|done].
  - simpl. apply sim_with_tracker;
      [by rewrite marked_length|by apply marked_bytes|done].
Qed.

Lemma sim_scan (mem : string) (f g : frame) :
  sim f g -> sim_step (scan mem f) (scan mem g).
Proof.
  revert f g. induction mem as [|c rest IH]; intros f g Hs; simpl; [done|].
  destruct (Ascii.eqb c NUL); [done|].
  apply sim_step_bind; [by apply sim_loop_body|done].
Qed.

Lemma sim_closing (f g : frame) :
  sim f g -> output_idx f <= 253 -> closing f = closing g.
Proof.
  intros Hs Hi. pose proof (sim_pushed ["}"%char; LF] f g Hs) as Hp.
  simpl length in Hp. specialize (Hp ltac:(lia)).
  unfold closing. rewrite (sim_written _ _ Hp).
  by rewrite (sim_stdout _ _ Hp), (sim_idx _ _ Hp).
Qed.

Lemma sim_finish (f g : frame) : sim f g -> finish f = finish g.
Proof.
  intros Hs. pose proof (sim_written f g Hs) as Hw.
  pose proof (sim_flushed f g Hs) as Hfl.
  pose proof Hs as [Et Ei Ef Es Ep Hf Hg].
  pose proof Hf as [_ _ Hlf Hif]. pose proof Hg as [_ _ Hlg Hig].
  rewrite !finish_eq by done. rewrite <- Hw, <- Ei, <- Es.
  on_capacity f 2.
  - destruct (_ =? -1); [done|]. apply sim_closing; [done|simpl; lia].
  - apply sim_closing; [done|lia].
Qed.

(** Two contents of the array [result] on entry. *)
Context (junk junk' : list ascii).
Context (Hj : length junk = 256%nat) (Hj' : length junk' = 256%nat).

Lemma sim_entry_frame (out : fd) :
  sim (entry_frame junk out) (entry_frame junk' out).
Proof.
  pose proof (sane_bounds _ (entry_frame_sane junk (fresh []) Hj (Forall_nil_2 _)))
    as [? ? ? ?].
  pose proof (sane_bounds _ (entry_frame_sane junk' (fresh []) Hj' (Forall_nil_2 _)))
    as [? ? ? ?].
  split; try done.
  destruct junk, junk'; done.
Qed.

Lemma find_duplicates_from_junk (str : option string) (out : fd) :
  find_duplicates_from junk str out = find_duplicates_from junk' str out.
Proof.
  rewrite !find_duplicates_from_eq by done.
  destruct (is_null_or_empty str); [done|].
  pose proof (sim_scan (default EmptyString str) _ _
                (sim_entry_frame out)) as Hscan.
  destruct (scan _ (entry_frame junk out)) as [f|rv w|],
           (scan _ (entry_frame junk' out)) as [g|rv' w'|]; simpl in Hscan; try done.
  - change (Next f ≫= finish) with (finish f).
    change (Next g ≫= finish) with (finish g). by rewrite (sim_finish f g).
  - by destruct Hscan as [-> ->].
Qed.

End Uninitialised.

(** ** The report of a successful call *)

Section Reports.

Lemma second_occurrences_from_app (before s1 s2 : list ascii) :
  second_occurrences_from before (s1 ++ s2)
  = second_occurrences_from before s1 ++ second_occurrences_from (before ++ s1) s2.
Proof.
  revert before. induction s1 as [|a s1 IH]; intros before; simpl.
  - by rewrite app_nil_r.
  - by rewrite IH, <- !app_assoc.
Qed.

Lemma second_occurrences_In (s : list ascii) (c : ascii) :
  c ∈ second_occurrences s <->
  printable c = true /\ (2 <= occurrences c s)%nat.
Proof.
  unfold second_occurrences. rewrite second_occurrences_from_In. simpl.
  unfold occurrences at 1. simpl. intuition lia.
Qed.

Lemma NoDup_occurrences (l : list ascii) (c : ascii) :
  NoDup l -> c ∈ l -> occurrences c l = 1%nat.
Proof.
  unfold occurrences. induction 1 as [|a l Ha Hl IH]; intros Hc.
  - by apply elem_of_nil in Hc.
  - rewrite filter_cons. apply elem_of_cons in Hc as [->|Hc].
    + rewrite decide_True by done. simpl. f_equal.
      apply length_zero_iff_nil, elem_of_nil_inv.
      intros x [-> Hx]%list_elem_of_filter. done.
    + rewrite decide_False by (intros ->; done). by apply IH.
Qed.

(** Symbols whose second occurrence lies in [pre] are listed before those
    whose second occurrence lies in [post]. *)
Lemma second_occurrences_order (pre post : list ascii) (a b : ascii) (i j : nat) :
  printable a = true -> (2 <= occurrences a pre)%nat ->
  (occurrences b pre <= 1)%nat ->
  second_occurrences (pre ++ post) !! i = Some a ->
  second_occurrences (pre ++ post) !! j = Some b ->
  (i < j)%nat.
Proof.
  intros Ha Ha2 Hb1 Hi Hj.
  pose proof (second_occurrences_from_NoDup [] (pre ++ post)) as Hnd.
  unfold second_occurrences in *.
  rewrite second_occurrences_from_app in Hi, Hj, Hnd. simpl in Hi, Hj, Hnd.
  fold (second_occurrences pre) in *.
  assert (a ∈ second_occurrences pre) as Ha1 by (by apply second_occurrences_In).
  assert (b ∉ second_occurrences pre) as Hb by (rewrite second_occurrences_In; lia).
  apply NoDup_app in Hnd as (_ & Hdisj & _).
  destruct (decide (i < length (second_occurrences pre))%nat) as [Hlt|Hge].
  - destruct (decide (j < length (second_occurrences pre))%nat) as [Hjlt|]; [|lia].
    rewrite lookup_app_l in Hj by done.
    exfalso. apply Hb. by eapply list_elem_of_lookup_2.
  - rewrite lookup_app_r in Hi by lia.
    exfalso. apply (Hdisj a Ha1). by eapply list_elem_of_lookup_2.
Qed.

Lemma comma_separated_inj (l k : list ascii) :
  comma_separated l = comma_separated k -> l = k.
Proof.
  revert k. induction l as [|a [|b l] IH]; intros [|x [|y k]]; try done.
  change (a :: ","%char :: " "%char :: comma_separated (b :: l)
          = x :: ","%char :: " "%char :: comma_separated (y :: k) ->
          a :: b :: l = x :: y :: k).
  intros [= -> Hrest]. f_equal. by apply IH.
Qed.

(** A report line determines the entries it lists. *)
Lemma report_inj (l k : list ascii) : report l = report k -> l = k.
Proof.
  unfold report. intros [= H]. by apply app_inv_tail, comma_separated_inj in H.
Qed.

End Reports.

(** ** Characters outside the alphabet *)

Section Stripping.

Lemma bind_ext (m : step frame) (k k' : frame -> step frame) :
  (forall f, k f = k' f) -> m ≫= k = m ≫= k'.
Proof. intros Hk. destruct m; simpl; auto. Qed.


Lemma bind_assoc (m : step frame) (k k' : frame -> step frame) :
  (m ≫= k) ≫= k' = m ≫= (fun f => k f ≫= k').
Proof. by destruct m. Qed.

(** On a longer string the loop passes through the state in which it leaves
    a prefix that holds no NUL. *)
Lemma scan_app (pre post : string) (f : frame) :
  c_str pre = String.list_ascii_of_string pre ->
  scan (pre +:+ post) f = scan pre f ≫= scan post.
Proof.
  revert f. induction pre as [|c rest IH]; intros f Hpre; [done|].
  simpl in *. destruct (Ascii.eqb c NUL); [done|].
  injection Hpre as Hrest. rewrite bind_assoc. apply bind_ext.
  intros f'. by apply IH.
Qed.

Lemma strip_cons (c : ascii) (rest : string) :
  strip (String c rest) =
    if Ascii.eqb c NUL then EmptyString
    else if printable c then String c (strip rest) else strip rest.
Proof.
  unfold strip. simpl. destruct (Ascii.eqb c NUL); [done|].
  rewrite filter_cons. destruct (printable c); done.
Qed.

(** The loop does the same on the stripped string. *)
Lemma scan_strip (mem : string) (f : frame) : scan (strip mem) f = scan mem f.
Proof.
  revert f. induction mem as [|c rest IH]; intros f; [done|].
  rewrite strip_cons. simpl.
  destruct (Ascii.eqb c NUL) eqn:Hnul; [done|].
  destruct (printable c) eqn:Hc.
  - simpl. rewrite Hnul. by apply bind_ext.
  - rewrite loop_body_skip by done. apply IH.
Qed.

Lemma c_str_strip (mem : string) :
  c_str (strip mem) = filter (fun c => printable c = true) (c_str mem).
Proof.
  induction mem as [|c rest IH]; [done|].
  rewrite strip_cons. simpl.
  destruct (Ascii.eqb c NUL) eqn:Hnul; [done|].
  rewrite filter_cons. destruct (printable c) eqn:Hc.
  - rewrite decide_True by done. simpl. by rewrite Hnul, IH.
  - rewrite decide_False by congruence. done.
Qed.

Lemma occurrences_filter (c : ascii) (l : list ascii) :
  printable c = true ->
  occurrences c (filter (fun c => printable c = true) l) = occurrences c l.
Proof.
  intros Hc. unfold occurrences. induction l as [|a l IH]; [done|].
  rewrite !filter_cons. destruct (decide (a = c)) as [->|Hne].
  - rewrite decide_True by done. rewrite filter_cons, decide_True by done.
    simpl. by rewrite IH.
  - destruct (decide (printable a = true)); [|done].
    by rewrite filter_cons, decide_False.
Qed.

Lemma second_occurrences_from_filter (before s : list ascii) :
  second_occurrences_from (filter (fun c => printable c = true) before)
                          (filter (fun c => printable c = true) s)
  = second_occurrences_from before s.
Proof.
  revert before. induction s as [|a s IH]; intros before; [done|].
  rewrite filter_cons. simpl. rewrite <- IH, filter_app, filter_cons, filter_nil.
  destruct (printable a) eqn:Ha.
  - rewrite !decide_True by done. simpl. by rewrite Ha, occurrences_filter.
  - rewrite !decide_False by congruence. simpl. by rewrite app_nil_r.
Qed.

End Stripping.

(** ** Memory safety and the tracker invariant *)

Section Safety.

Lemma printable_byte_index (c : ascii) :
  printable c = true -> 8 <= byte_index_of (uchar c) <= 31.
Proof.
  intros Hc%printable_range. rewrite byte_index_eq by lia.
  Z.div_mod_to_equations. lia.
Qed.

(** With the byte formula on every tracker byte, a duplicate bit comes
    with its seen bit. *)
Lemma nibbles_symbols (f : frame) :
  bounds f -> Forall nibbles_ok (character_tracker f) ->
  forall c, duplicate_bit f c = true -> seen_bit f c = true.
Proof.
  intros [Hl Hby _ _] Hn c. unfold duplicate_bit, seen_bit, tracker_bit.
  destruct (character_tracker f !! _) as [b|] eqn:Hb; [|done].
  pose proof (proj1 (Forall_lookup _ _) Hby _ _ Hb) as Hbr. simpl in Hbr.
  pose proof (proj1 (Forall_lookup _ _) Hn _ _ Hb) as Hbn. simpl in Hbn.
  rewrite nibbles_ok_bits in Hbn by done.
  rewrite Z.add_0_r. apply Hbn, bit_position_range.
Qed.

Lemma sane_duplicate_only_if_seen (f : frame) : sane f -> duplicate_only_if_seen f.
Proof.
  intros [Hb _ Hn]. split; [done|]. by apply nibbles_symbols.
Qed.

End Safety.

(** * The claims of the specification *)

(** C1: for every non-empty string and a sink that accepts, the call returns
    0 and the bytes delivered are the report of the symbols of the alphabet
    that occur at least twice, each listed once, ordered by the position of
    the second occurrence: a symbol whose second occurrence lies in a prefix
    [pre] of the input precedes one whose second occurrence comes after
    [pre].  On ["aabbcc"] the single write carries ["{a, b, c}"] and a
    newline. *)
Theorem report_in_order_of_second_occurrence (mem : string) (sc : list reply) :
  accepting sc -> c_str mem <> [] ->
  exists w,
    find_duplicates (Some mem) (fresh sc) = Some (0, w) /\
    delivered w = report (second_occurrences (c_str mem)) /\
    (forall l, delivered w = report l -> l = second_occurrences (c_str mem)) /\
    NoDup (second_occurrences (c_str mem)) /\
    (forall c, c ∈ second_occurrences (c_str mem) <->
               printable c = true /\ (2 <= occurrences c (c_str mem))%nat) /\
    (forall pre post a b i j,
        c_str mem = pre ++ post ->
        printable a = true -> (2 <= occurrences a pre)%nat ->
        (occurrences b pre <= 1)%nat ->
        second_occurrences (c_str mem) !! i = Some a ->
        second_occurrences (c_str mem) !! j = Some b ->
        (i < j)%nat) /\
    find_duplicates (Some "aabbcc") (fresh [])
    = Some (0, mkfd [(line "{a, b, c}", 10)] []).
Proof.
  intros Hsc Hne.
  destruct (find_duplicates_from_report (replicate 256 NUL) mem sc) as (w & Hrun & Hw);
    [done..|].
  exists w. split; [done|]. split; [done|].
  split; [intros l Hl; apply report_inj; by rewrite <- Hl|].
  split; [apply second_occurrences_from_NoDup|].
  split; [intros c; apply second_occurrences_In|].
  split; [|by vm_compute].
  intros pre post a b i j ->. apply second_occurrences_order.
Qed.

Lemma report_in_order_of_second_occurrence_witness :
  accepting [] /\ c_str "abcabcaxbxc" <> [] /\
  exists w,
    find_duplicates (Some "abcabcaxbxc") (fresh []) = Some (0, w) /\
    delivered w = line "{a, b, c, x}".
Proof.
  split; [apply Forall_nil_2|]. split; [done|].
  destruct (report_in_order_of_second_occurrence "abcabcaxbxc" [])
    as (w & Hrun & Hw & _); [apply Forall_nil_2|done|].
  exists w. split; [exact Hrun|]. rewrite Hw. reflexivity.
Defined.

(** C4: for every non-empty string in which no symbol of the alphabet occurs
    twice, and a sink that accepts, the call returns 0 and the bytes
    delivered are exactly ["{"], ["}"] and a newline. *)
Theorem no_duplicates_gives_empty_braces (mem : string) (sc : list reply) :
  accepting sc -> c_str mem <> [] ->
  (forall c, printable c = true -> (occurrences c (c_str mem) <= 1)%nat) ->
  exists w,
    find_duplicates (Some mem) (fresh sc) = Some (0, w) /\
    delivered w = ["{"%char; "}"%char; LF].
Proof.
  intros Hsc Hne Honce.
  destruct (find_duplicates_from_report (replicate 256 NUL) mem sc) as (w & Hrun & Hw);
    [done..|].
  exists w. split; [done|]. rewrite Hw.
  assert (second_occurrences (c_str mem) = []) as ->; [|done].
  apply elem_of_nil_inv. intros c [Hc Hge]%second_occurrences_In.
  specialize (Honce c Hc). lia.
Qed.

Lemma no_duplicates_gives_empty_braces_witness :
  accepting [] /\ c_str "abcXYZ" <> [] /\
  (forall c, printable c = true -> (occurrences c (c_str "abcXYZ") <= 1)%nat) /\
  exists w,
    find_duplicates (Some "abcXYZ") (fresh []) = Some (0, w) /\
    delivered w = ["{"%char; "}"%char; LF].
Proof.
  assert (forall c, printable c = true -> (occurrences c (c_str "abcXYZ") <= 1)%nat)
    as Honce.
  { intros c _. unfold occurrences. simpl.
    rewrite !filter_cons, filter_nil.
    repeat (destruct (decide (_ = c)) as [<-|?]; [rewrite ?decide_False by done|]);
      simpl; lia. }
  split; [apply Forall_nil_2|]. split; [done|]. split; [exact Honce|].
  apply (no_duplicates_gives_empty_braces "abcXYZ" []);
    [apply Forall_nil_2|done|exact Honce].
Defined.

(** C5: a symbol of the alphabet that occurs three times or more is listed
    exactly once in the report; on ["aaaa"] the single write carries
    ["{a}"] and a newline. *)
Theorem repeated_symbol_reported_once (mem : string) (sc : list reply) (c : ascii) :
  accepting sc -> printable c = true -> (3 <= occurrences c (c_str mem))%nat ->
  exists w,
    find_duplicates (Some mem) (fresh sc) = Some (0, w) /\
    delivered w = report (second_occurrences (c_str mem)) /\
    occurrences c (second_occurrences (c_str mem)) = 1%nat /\
    find_duplicates (Some "aaaa") (fresh []) = Some (0, mkfd [(line "{a}", 4)] []).
Proof.
  intros Hsc Hc H3.
  assert (c_str mem <> []) as Hne
    by (intros E; rewrite E in H3; unfold occurrences in H3; simpl in H3; lia).
  destruct (find_duplicates_from_report (replicate 256 NUL) mem sc) as (w & Hrun & Hw);
    [done..|].
  exists w. split; [done|]. split; [done|]. split; [|by vm_compute].
  apply NoDup_occurrences; [apply second_occurrences_from_NoDup|].
  apply second_occurrences_In. split; [done|lia].
Qed.

Lemma repeated_symbol_reported_once_witness :
  accepting [] /\ printable "a" = true /\ (3 <= occurrences "a" (c_str "abaacab"))%nat /\
  exists w,
    find_duplicates (Some "abaacab") (fresh []) = Some (0, w) /\
    delivered w = line "{a, b}".
Proof.
  split; [apply Forall_nil_2|]. split; [done|].
  assert (3 <= occurrences "a" (c_str "abaacab"))%nat as H3 by (vm_compute; lia).
  split; [exact H3|].
  destruct (repeated_symbol_reported_once "abaacab" [] "a")
    as (w & Hrun & Hw & _); [apply Forall_nil_2|done|exact H3|].
  exists w. split; [exact Hrun|]. rewrite Hw. reflexivity.
Defined.

(** C2: on the driver's input, every symbol of the alphabet twice in
    ascending order, the call returns 0 and the bytes delivered are ["{"],
    the 95 symbols in ascending order separated by a comma and a space,
    ["}"] and a newline; they arrive in two writes, of 254 and of 32 bytes,
    because the buffer is written out before the 86th entry is stored. *)
Theorem main_reports_whole_alphabet :
  c_str main_str = flat_map (fun c => [c; c]) alphabet /\
  exists w,
    find_duplicates (Some main_str) (fresh []) = Some (0, w) /\
    main (fresh []) = Some (0, w) /\
    delivered w = report alphabet /\
    (fun c => length c.1) <$> calls w = [254; 32]%nat /\
    concat (fst <$> calls w) = report alphabet.
Proof.
  split; [by vm_compute|].
  destruct (find_duplicates_from_report (replicate 256 NUL) main_str [])
    as (w & Hrun & Hw); [done|apply Forall_nil_2|by vm_compute|].
  change (find_duplicates_from (replicate 256 NUL)) with find_duplicates in Hrun.
  exists w. split; [exact Hrun|]. split; [unfold main; by rewrite Hrun|].
  assert (second_occurrences (c_str main_str) = alphabet) as Hl by (by vm_compute).
  rewrite Hl in Hw. split; [exact Hw|].
  assert ((fun p => ((fun c => length c.1) <$> calls p.2, concat (fst <$> calls p.2)))
            <$> find_duplicates (Some main_str) (fresh [])
          = Some ([254; 32]%nat, report alphabet)) as Hcalls by (by vm_compute).
  rewrite Hrun in Hcalls. injection Hcalls as Hlens Hcat.
  split; [exact Hlens|exact Hcat].
Qed.

(** C3 (the code departs from it): on the NULL pointer and on the empty
    string the call does not scan and returns -1 after one write, but the
    write has count 31 for a text of 30 bytes: the sink receives the
    diagnostic text, the newline and then the NUL that ends the literal. *)
Theorem diagnostic_write_carries_terminator :
  find_duplicates None (fresh [])
    = Some (-1, mkfd [(line "Input string is null or empty" ++ [NUL], 31)] []) /\
  find_duplicates (Some "") (fresh [])
    = Some (-1, mkfd [(line "Input string is null or empty" ++ [NUL], 31)] []) /\
  delivered (mkfd [(line "Input string is null or empty" ++ [NUL], 31)] [])
    = line "Input string is null or empty" ++ [NUL] /\
  line "Input string is null or empty" ++ [NUL] <> line "Input string is null or empty".
Proof.
  repeat split; by vm_compute.
Qed.

(** C6, without the case in which nothing is left: the loop body leaves the
    locals unchanged on a character outside the alphabet, so the loop runs
    the same on the string with these characters removed; the whole result
    of the call (return value and every write) is the same for both strings
    as long as the stripped string is not empty, and the symbols reported
    are those of the stripped string, all of them in the alphabet. *)
Theorem characters_outside_alphabet_are_skipped (mem : string) (out : fd) :
  (forall c f, printable c = false -> loop_body c f = Next f) /\
  (forall f, scan (strip mem) f = scan mem f) /\
  (c_str (strip mem) <> [] ->
   find_duplicates (Some (strip mem)) out = find_duplicates (Some mem) out) /\
  second_occurrences (c_str (strip mem)) = second_occurrences (c_str mem) /\
  Forall (fun c => printable c = true) (second_occurrences (c_str mem)).
Proof.
  split; [apply loop_body_skip|]. split; [apply scan_strip|].
  split; [|split].
  - intros Hne. unfold find_duplicates. rewrite !find_duplicates_from_eq by done.
    rewrite !is_null_or_empty_c_str.
    assert (c_str mem <> []) as Hne'.
    { intros E. apply Hne. by rewrite c_str_strip, E. }
    rewrite !bool_decide_eq_false_2 by done. simpl default.
    by rewrite scan_strip.
  - rewrite c_str_strip. apply (second_occurrences_from_filter []).
  - apply Forall_forall. intros c Hc.
    by apply second_occurrences_In in Hc as [Hc _].
Qed.

Lemma characters_outside_alphabet_are_skipped_witness :
  c_str (strip noisy_input) <> [] /\
  find_duplicates (Some (strip noisy_input)) (fresh [])
  = find_duplicates (Some noisy_input) (fresh []) /\
  find_duplicates (Some noisy_input) (fresh []) = Some (0, mkfd [(line "{a}", 4)] []).
Proof.
  destruct (characters_outside_alphabet_are_skipped noisy_input (fresh []))
    as (_ & _ & Hsame & _).
  split; [done|]. split; [by apply Hsame|reflexivity].
Defined.

(** C6 as stated fails: a string made of one control character is scanned
    and yields the empty report with return value 0, while the string left
    after removing the character is empty and takes the diagnostic path. *)
Lemma stripping_to_empty_changes_output :
  find_duplicates (Some (String SOH "")) (fresh [])
    = Some (0, mkfd [(line "{}", 3)] []) /\
  strip (String SOH "") = EmptyString /\
  find_duplicates (Some (strip (String SOH ""))) (fresh [])
    = Some (-1, mkfd [(diagnostic, 31)] []) /\
  (delivered <$> (snd <$> find_duplicates (Some (strip (String SOH ""))) (fresh [])))
  <> (delivered <$> (snd <$> find_duplicates (Some (String SOH "")) (fresh []))).
Proof.
  repeat split; by vm_compute.
Qed.

(** C7: every call returns, and if some write was rejected then the call
    returned -1, the rejected write is the last call made on the sink (it
    was not repeated and nothing was written after it), no earlier write
    was rejected, and the sink holds exactly what the earlier writes
    delivered. *)
Theorem rejected_write_aborts (str : option string) (sc : list reply) :
  exists rv w,
    find_duplicates str (fresh sc) = Some (rv, w) /\
    forall i buf, calls w !! i = Some (buf, -1) ->
      rv = -1 /\ S i = length (calls w) /\ unfailed (take i (calls w)) /\
      delivered w = concat (taken <$> take i (calls w)).
Proof.
  destruct (find_duplicates_from_settled (replicate 256 NUL) eq_refl str sc)
    as (rv & w & Hrun & Hs).
  exists rv, w. split; [done|]. intros i buf Hi.
  destruct (failed_call_is_last rv w i buf Hs Hi) as (Hrv & Hlen & Hpre).
  repeat split; try done.
  unfold delivered. rewrite <- (take_drop i (calls w)) at 1.
  rewrite (drop_S _ _ _ Hi), drop_ge by lia.
  rewrite fmap_app, concat_app. simpl. by rewrite app_nil_r.
Qed.

Lemma rejected_write_aborts_witness :
  exists rv w buf,
    find_duplicates (Some main_str) (fresh [Accept; Reject]) = Some (rv, w) /\
    calls w !! 1%nat = Some (buf, -1) /\
    rv = -1 /\ length (calls w) = 2%nat /\ length (delivered w) = 254%nat.
Proof.
  destruct (rejected_write_aborts (Some main_str) [Accept; Reject])
    as (rv & w & Hrun & Hlog).
  assert ((fun p => (calls p.2 !! 1%nat, length (delivered p.2)))
            <$> find_duplicates (Some main_str) (fresh [Accept; Reject])
          = Some (Some (drop 254 (report alphabet), -1), 254%nat)) as Hc
    by (by vm_compute).
  rewrite Hrun in Hc. simpl in Hc. injection Hc as Hc Hd.
  destruct (Hlog _ _ Hc) as (Hrv & Hlen & _).
  exists rv, w, (drop 254 (report alphabet)).
  split; [exact Hrun|]. split; [exact Hc|]. split; [exact Hrv|].
  split; [by rewrite <- Hlen|exact Hd].
Defined.

(** C8: the result of a call (return value and every write) is a function
    of the string and of the sink alone: it is the same whatever the
    uninitialised array [result] holds on entry, the only part of the
    state that is not set afresh by the call. *)
Theorem result_independent_of_stack_content (junk junk' : list ascii)
    (str : option string) (out : fd) :
  length junk = 256%nat -> length junk' = 256%nat ->
  find_duplicates_from junk str out = find_duplicates_from junk' str out /\
  find_duplicates_from junk str out = find_duplicates str out.
Proof.
  intros Hj Hj'. split; by apply find_duplicates_from_junk.
Qed.

Lemma result_independent_of_stack_content_witness :
  length (replicate 256 "x"%char) = 256%nat /\
  length (replicate 256 "y"%char) = 256%nat /\
  find_duplicates_from (replicate 256 "x"%char) (Some "abab") (fresh [])
  = find_duplicates_from (replicate 256 "y"%char) (Some "abab") (fresh []) /\
  find_duplicates_from (replicate 256 "x"%char) (Some "abab") (fresh [])
  = find_duplicates (Some "abab") (fresh []).
Proof.
  split; [reflexivity|]. split; [reflexivity|].
  apply (result_independent_of_stack_content
           (replicate 256 "x"%char) (replicate 256 "y"%char) (Some "abab") (fresh []));
    reflexivity.
Defined.

(** C9: whatever the string, the sink and the content of [result] on entry,
    the call returns without an access outside an array.  The tracker index
    of a symbol of the alphabet lies between 8 and 31; at the head of every
    iteration [output_idx] is at most 255 and the arrays have their declared
    sizes; and when fewer than 3 bytes (in the loop) or fewer than 2 bytes
    (at the end) are free, the buffer is written out and the stores restart
    at index 0. *)
Theorem array_accesses_in_bounds (junk : list ascii) (str : option string)
    (sc : list reply) :
  length junk = 256%nat ->
  (exists rv w, find_duplicates_from junk str (fresh sc) = Some (rv, w)) /\
  (forall c, printable c = true -> 8 <= byte_index_of (uchar c) <= 31) /\
  (forall mem, wp (scan mem (entry_frame junk (fresh sc))) bounds (fun _ _ => True)) /\
  (forall f ch, bounds f -> RESULT_BUFFER_SIZE - output_idx f < 3 ->
     emit ch f =
       if answer (default Accept (head (script (stdout f)))) (output_idx f) =? -1
       then Return (-1) (written (stdout f) (result f) (output_idx f))
       else Next (set_first 0
                    (pushed (entry (is_first_duplicate f) (to_char ch)) (flushed f)))) /\
  (forall f, bounds f -> RESULT_BUFFER_SIZE - output_idx f < 2 ->
     finish f =
       if answer (default Accept (head (script (stdout f)))) (output_idx f) =? -1
       then Return (-1) (written (stdout f) (result f) (output_idx f))
       else closing (flushed f)).
Proof.
  intros Hj. split; [|split; [|split; [|split]]].
  - destruct (find_duplicates_from_settled junk Hj str sc) as (rv & w & Hrun & _).
    by exists rv, w.
  - apply printable_byte_index.
  - intros mem.
    eapply wp_mono;
      [apply scan_sane, (entry_frame_sane junk (fresh sc) Hj (Forall_nil_2 _))| |done].
    intros f Hf. apply Hf.
  - intros f ch [_ _ Hl Hi] Hfull. rewrite emit_eq by done.
    unfold RESULT_BUFFER_SIZE in *. rewrite Z.geb_leb.
    destruct (Z.leb_spec 256 (output_idx f + 3)); [done|lia].
  - intros f [_ _ Hl Hi] Hfull. rewrite finish_eq by done.
    unfold RESULT_BUFFER_SIZE in *. rewrite Z.geb_leb.
    destruct (Z.leb_spec 256 (output_idx f + 2)); [done|lia].
Qed.

Lemma array_accesses_in_bounds_witness :
  length (replicate 256 "x"%char) = 256%nat /\
  (exists rv w,
     find_duplicates_from (replicate 256 "x"%char) (Some main_str)
       (fresh [Short 7; Reject]) = Some (rv, w)) /\
  8 <= byte_index_of (uchar " ") <= 31 /\
  8 <= byte_index_of (uchar "~") <= 31.
Proof.
  destruct (array_accesses_in_bounds (replicate 256 "x"%char) (Some main_str)
              [Short 7; Reject]) as (Hrun & Hidx & _); [reflexivity|].
  split; [reflexivity|]. split; [exact Hrun|].
  split; apply Hidx; reflexivity.
Defined.

(** C10: at the head of every iteration, whatever the string, the sink and
    the content of [result] on entry, every tracker byte [b] satisfies
    [(b >> 4) & (b & 0x0F) = b >> 4] and every character has its duplicate
    bit set only if its seen bit is set; one more iteration from such a
    state keeps both.  The heads of the iterations are the states in which
    the loop leaves the prefixes of its input.  The zeroed tracker satisfies
    the formula, and for a byte the formula says exactly that bit [j + 4]
    is set only if bit [j] is, for [j] from 0 to 3. *)
Theorem tracker_duplicate_only_if_seen (junk : list ascii) (pre : string)
    (sc : list reply) :
  length junk = 256%nat ->
  Forall nibbles_ok (replicate 64 0) /\
  wp (scan pre (entry_frame junk (fresh sc)))
     (fun f =>
        duplicate_only_if_seen f /\
        forall c, wp (loop_body c f) duplicate_only_if_seen (fun _ _ => True))
     (fun _ _ => True) /\
  (forall post, c_str pre = String.list_ascii_of_string pre ->
     scan (pre +:+ post) (entry_frame junk (fresh sc))
     = scan pre (entry_frame junk (fresh sc)) ≫= scan post) /\
  (forall b, 0 <= b < 256 ->
     nibbles_ok b <->
     forall j, 0 <= j <= 3 -> Z.testbit b (j + 4) = true -> Z.testbit b j = true).
Proof.
  intros Hj. split; [by apply Forall_replicate|].
  split; [|split; [intros post; apply scan_app|apply nibbles_ok_bits]].
  eapply wp_mono;
    [apply scan_sane, (entry_frame_sane junk (fresh sc) Hj (Forall_nil_2 _))| |done].
  intros f Hf. split; [by apply sane_duplicate_only_if_seen|].
  intros c. eapply wp_mono; [by apply loop_body_sane| |done].
  apply sane_duplicate_only_if_seen.
Qed.

Lemma tracker_duplicate_only_if_seen_witness :
  length (replicate 256 "x"%char) = 256%nat /\
  wp (scan "abcabcaxbxc" (entry_frame (replicate 256 "x"%char) (fresh [])))
     duplicate_only_if_seen (fun _ _ => True).
Proof.
  split; [reflexivity|].
  destruct (tracker_duplicate_only_if_seen (replicate 256 "x"%char) "abcabcaxbxc" [])
    as (_ & Hscan & _); [reflexivity|].
  eapply wp_mono; [exact Hscan| |done].
  intros f [Hf _]. exact Hf.
Defined.

(** * Further properties of the code *)

(** ** The log of writes whatever the sink answers *)

Section Log.

Lemma tail_drop {A : Type} (l : list A) (n : nat) : tail (drop n l) = drop (S n) l.
Proof.
  revert l. induction n as [|n IH]; intros [|x l]; simpl; done.
Qed.

(** The script the sink started with. *)
Context (sc : list reply).

Lemma offered_written (w : fd) (buf : list ascii) (n : Z) :
  offered (written w buf n) = offered w ++ take (Z.to_nat n) buf.
Proof.
  unfold offered, written. cbn [calls].
  rewrite fmap_app, concat_app. simpl. by rewrite app_nil_r.
Qed.

(** Only a rejection makes [write] return -1. *)
Lemma answer_rejects (r : reply) (n : Z) : 0 <= n -> answer r n = -1 -> r = Reject.
Proof. destruct r; simpl; intros; (done || lia). Qed.

Lemma script_head (w : fd) :
  script w = drop (length (calls w)) sc ->
  default Accept (head (script w)) = default Accept (sc !! length (calls w)).
Proof.
  intros ->. by rewrite head_lookup, lookup_drop, Nat.add_0_r.
Qed.

Lemma script_written (w : fd) (buf : list ascii) (n : Z) :
  script w = drop (length (calls w)) sc ->
  script (written w buf n) = drop (length (calls (written w buf n))) sc.
Proof.
  intros Hw. unfold written. cbn [script calls].
  rewrite Hw, length_app. simpl. rewrite Nat.add_1_r. apply tail_drop.
Qed.

Lemma logs_with_tracker (l : list ascii) (t : list Z) (f : frame) :
  logs sc l f -> logs sc l (with_tracker t f).
Proof. intros [? ? ? ?]. by split. Qed.

(** Writing the buffer out keeps the text; the call is one more batch. *)
Lemma logs_flushed (l : list ascii) (f : frame) :
  length (result f) = 256%nat -> 253 <= output_idx f <= 255 ->
  logs sc l f -> logs sc l (flushed f).
Proof.
  intros Hl Hi [Htext Hfirst Hscript Hbat]. split; simpl.
  - by rewrite offered_written, take_0, app_nil_r.
  - done.
  - by apply script_written.
  - apply Forall_app. split; [done|]. apply Forall_singleton. simpl.
    rewrite length_take. lia.
Qed.

(** A rejected write of the buffer ends the call. *)
Lemma logs_rejected (l : list ascii) (f : frame) :
  length (result f) = 256%nat -> 253 <= output_idx f <= 255 ->
  logs sc l f ->
  answer (default Accept (head (script (stdout f)))) (output_idx f) = -1 ->
  rejected sc l (-1) (written (stdout f) (result f) (output_idx f)).
Proof.
  intros Hl Hi Hlogs Hrej.
  pose proof (logs_flushed l f Hl Hi Hlogs) as [Htext _ _ Hbat].
  destruct Hlogs as [_ _ Hscript _]. simpl in Htext, Hbat.
  rewrite take_0, app_nil_r in Htext.
  split; [done|]. split; [done|]. split; [|split; [done|]].
  - unfold written. cbn [calls]. by destruct (calls (stdout f)).
  - rewrite script_head in Hrej by done.
    unfold written. cbn [calls]. rewrite length_app. simpl.
    rewrite Nat.add_1_r. simpl.
    destruct (sc !! length (calls (stdout f))) as [r|] eqn:Hr; simpl in Hrej.
    + apply answer_rejects in Hrej as ->; [done|lia].
    + lia.
Qed.

Lemma logs_entry (l : list ascii) (c : ascii) (f : frame) :
  length (result f) = 256%nat -> 0 <= output_idx f <= 252 ->
  logs sc l f ->
  logs sc (l ++ [c]) (set_first 0 (pushed (entry (is_first_duplicate f) c) f)).
Proof.
  intros Hl Hi [Htext Hfirst Hscript Hbat].
  pose proof (entry_length (is_first_duplicate f) c) as Hlen.
  destruct (pushed_fields (entry (is_first_duplicate f) c) f) as (_ & _ & Es & _ & _).
  split; simpl; rewrite ?Es; try done.
  - rewrite pushed_pending by lia.
    rewrite app_assoc, Htext, comma_separated_snoc, Hfirst. done.
  - by destruct l.
Qed.

Lemma clear_outside_marked (k : Z) (c : ascii) (f f' : frame) :
  length (character_tracker f) = 64%nat -> k = 0 \/ k = 4 ->
  printable c = true -> clear_outside f ->
  character_tracker f' = marked k c (character_tracker f) ->
  clear_outside f'.
Proof.
  intros Hl Hk Hc Hclear Hf' d Hd. unfold seen_bit, duplicate_bit. rewrite Hf'.
  rewrite !tracker_bit_marked by auto.
  rewrite bool_decide_eq_false_2 by congruence. simpl. rewrite !orb_false_r.
  apply Hclear, Hd.
Qed.

Lemma clear_outside_ext (f f' : frame) :
  character_tracker f' = character_tracker f -> clear_outside f -> clear_outside f'.
Proof.
  intros Hf' Hclear d Hd. unfold seen_bit, duplicate_bit. rewrite Hf'.
  apply Hclear, Hd.
Qed.

(** One iteration: the tracker counts one more character, the report so
    far grows by it exactly when this is its second occurrence, and the
    only way out of the function is a rejected write. *)
Lemma loop_body_logs (before l : list ascii) (c : ascii) (f : frame) :
  sane f -> tracks before f -> clear_outside f -> logs sc l f ->
  wp (loop_body c f)
     (fun f' => sane f' /\ tracks (before ++ [c]) f' /\ clear_outside f' /\
                logs sc (l ++ (if printable c && (occurrences c before =? 1)%nat
                               then [c] else [])) f')
     (rejected sc l).
Proof.
  intros Hs Ht Hcl Hlg. pose proof (sane_bounds _ Hs) as [Hlt Hby Hlr Hi].
  pose proof (loop_body_sane c f Hs) as Hsane.
  pose proof (tracks_step before c f) as Hstep.
  rewrite loop_body_eq in Hsane |- * by done.
  destruct (printable c) eqn:Hc; simpl;
    [|rewrite app_nil_r; split; [done|split; [by apply Hstep|done]]].
  destruct (Ht c Hc) as [Hseen Hdup].
  destruct (seen_bit f c) eqn:Es; [destruct (duplicate_bit f c) eqn:Ed|].
  - assert ((occurrences c before =? 1)%nat = false) as ->
      by (apply Nat.eqb_neq; intros E1; rewrite E1 in Hdup;
          destruct Hdup as [Hd _]; specialize (Hd eq_refl); lia).
    rewrite app_nil_r. split; [done|split; [by apply Hstep|done]].
  - assert ((occurrences c before =? 1)%nat = true) as ->.
    { apply Nat.eqb_eq.
      assert (1 <= occurrences c before)%nat by (by apply Hseen).
      assert (~ (2 <= occurrences c before)%nat)
        by (intros Hge; apply Hdup in Hge; congruence).
      lia. }
    set (g := with_tracker (marked 4 c (character_tracker f)) f) in *.
    assert (logs sc l g) as Hg by (by apply logs_with_tracker).
    assert (clear_outside g) as Hclg by (by apply (clear_outside_marked 4 c f); auto).
    rewrite emit_eq in Hsane |- * by done.
    pose proof (logs_entry l (to_char (uchar c)) g Hlr) as Hpush.
    pose proof (logs_entry l (to_char (uchar c)) (flushed g) Hlr) as Hpushf.
    pose proof (logs_flushed l g Hlr) as Hflush.
    pose proof (logs_rejected l g Hlr) as Hrej.
    rewrite to_char_uchar in *.
    unfold RESULT_BUFFER_SIZE in *. rewrite Z.geb_leb in *.
    destruct (Z.leb_spec 256 (output_idx g + 3)) as [Hfull|Hroom].
    + destruct (Z.eqb_spec (answer (default Accept (head (script (stdout g))))
                              (output_idx g)) (-1)) as [Hno|Hyes].
      * cbn [wp]. apply Hrej; [simpl in *; lia|done|done].
      * cbn [wp] in Hsane |- *. split; [done|split; [|split]].
        -- apply Hstep; [done..|]. by rewrite tracker_after_entry.
        -- eapply clear_outside_ext; [|exact Hclg]. by rewrite tracker_after_entry.
        -- apply Hpushf; [simpl; lia|]. apply Hflush; [simpl in *; lia|done].
    + cbn [wp] in Hsane |- *. split; [done|split; [|split]].
      * apply Hstep; [done..|]. by rewrite tracker_after_entry.
      * eapply clear_outside_ext; [|exact Hclg]. by rewrite tracker_after_entry.
      * apply Hpush; [simpl in *; lia|done].
  - assert ((occurrences c before =? 1)%nat = false) as ->
      by (apply Nat.eqb_neq; intros E1; rewrite E1 in Hseen;
          destruct Hseen as [_ Hd]; specialize (Hd (le_n _)); congruence).
    rewrite app_nil_r. simpl in Hsane |- *. split; [done|split; [|split]].
    + by apply Hstep.
    + by apply (clear_outside_marked 0 c f); auto.
    + by apply logs_with_tracker.
Qed.

(** The loop: it leaves the string with the tracker counting all of it and
    the whole list of entries reported so far, or it returns on a rejected
    write with a prefix of that list offered. *)
Lemma scan_logs (mem : string) (before l : list ascii) (f : frame) :
  sane f -> tracks before f -> clear_outside f -> logs sc l f ->
  wp (scan mem f)
     (fun f' => sane f' /\ tracks (before ++ c_str mem) f' /\ clear_outside f' /\
                logs sc (l ++ second_occurrences_from before (c_str mem)) f')
     (fun rv w => exists k,
        k `prefix_of` second_occurrences_from before (c_str mem) /\
        rejected sc (l ++ k) rv w).
Proof.
  revert before l f.
  induction mem as [|c rest IH]; intros before l f Hs Ht Hcl Hlg; simpl.
  - by rewrite !app_nil_r.
  - destruct (Ascii.eqb c NUL); simpl; [by rewrite !app_nil_r|].
    eapply wp_bind.
    + eapply wp_mono; [by apply (loop_body_logs before l)|intros f' Hf'; exact Hf'|].
      intros rv w Hrej. exists []. split; [apply prefix_nil|by rewrite app_nil_r].
    + intros f' (Hs' & Ht' & Hcl' & Hlg'). cbv beta.
      eapply wp_mono; [by apply (IH _ _ _ Hs' Ht' Hcl' Hlg')|..].
      * intros f'' (? & ? & ? & ?). by rewrite <- !app_assoc in *.
      * intros rv w (k & Hk & Hrej). eexists (_ ++ k).
        split; [by apply prefix_app|by rewrite app_assoc].
Qed.

End Log.

(** ** The end of the call whatever the sink answers *)

Section Outcome.

Lemma comma_separated_prefix (k k' : list ascii) :
  comma_separated k `prefix_of` comma_separated (k ++ k').
Proof.
  induction k as [|a [|b k] IH].
  - apply prefix_nil.
  - destruct k' as [|b k']; simpl; [done|]. by apply prefix_cons, prefix_nil.
  - change (a :: ","%char :: " "%char :: comma_separated (b :: k)
            `prefix_of`
            a :: ","%char :: " "%char :: comma_separated ((b :: k) ++ k')).
    by do 3 apply prefix_cons.
Qed.

(** The report so far is the beginning of the report. *)
Lemma report_prefix (k l : list ascii) :
  k `prefix_of` l -> ("{"%char :: comma_separated k) `prefix_of` report l.
Proof.
  intros [k' ->]. unfold report. apply prefix_cons, prefix_app_r.
  apply comma_separated_prefix.
Qed.

Lemma length_comma_separated (l : list ascii) :
  length (comma_separated l) = (3 * length l - 2)%nat.
Proof.
  induction l as [|a [|b l] IH]; [done..|].
  change (length (a :: ","%char :: " "%char :: comma_separated (b :: l))
          = (3 * length (a :: b :: l) - 2)%nat).
  simpl in *. lia.
Qed.

Lemma length_report (l : list ascii) :
  length (report l) = (3 + (3 * length l - 2))%nat.
Proof.
  unfold report. simpl. rewrite length_app, length_comma_separated. simpl. lia.
Qed.

Lemma printable_alphabet (c : ascii) : printable c = true -> c ∈ alphabet.
Proof.
  intros Hc%printable_range. unfold alphabet.
  apply list_elem_of_fmap. exists (Z.to_nat (uchar c)). split.
  - rewrite Z2Nat.id by lia. by rewrite to_char_uchar.
  - apply elem_of_seq. lia.
Qed.

(** No more entries than the alphabet has symbols. *)
Lemma second_occurrences_length (s : list ascii) :
  (length (second_occurrences s) <= 95)%nat.
Proof.
  change 95%nat with (length alphabet).
  apply submseteq_length, NoDup_submseteq; [apply second_occurrences_from_NoDup|].
  intros c [Hc _]%second_occurrences_In. by apply printable_alphabet.
Qed.

Lemma batched_length (cs : list (list ascii * Z)) :
  batched cs -> (253 * length cs <= length (concat (fst <$> cs)))%nat.
Proof.
  induction 1 as [|c cs Hc Hcs IH]; [done|].
  rewrite fmap_cons. cbn [concat length]. rewrite length_app.
  cbn beta in Hc. lia.
Qed.

(** The script the sink started with. *)
Context (sc : list reply).

Lemma rejected_outcome (k l : list ascii) (rv : Z) (w : fd) :
  k `prefix_of` l -> rejected sc k rv w -> outcome sc l rv w.
Proof.
  intros Hk (-> & Hoff & Hne & Hbat & Hrej). split; [|split].
  - destruct (calls w) as [|c0 cs0] eqn:Hc using rev_ind; [done|].
    apply Forall_app in Hbat as [Hpre Hlast]. apply Forall_inv in Hlast.
    cbn beta in Hlast. exists cs0, c0. split; [done|]. split; [done|lia].
  - rewrite Hoff. by apply report_prefix.
  - by right.
Qed.

(** Lines 138-143. *)
Lemma closing_logs (l : list ascii) (f : frame) :
  length (result f) = 256%nat -> 0 <= output_idx f <= 253 ->
  logs sc l f -> wp (closing f) (fun _ => False) (outcome sc l).
Proof.
  intros Hl Hi [Htext Hfirst Hscript Hbat]. unfold closing.
  set (g := pushed ["}"%char; LF] f).
  destruct (pushed_fields ["}"%char; LF] f) as (_ & _ & Es & Ei & El).
  fold g in Es, Ei, El. simpl length in Ei.
  assert (take (Z.to_nat (output_idx g)) (result g)
          = take (Z.to_nat (output_idx f)) (result f) ++ ["}"%char; LF]) as Hpend
    by (unfold g; rewrite pushed_pending by (simpl; lia); done).
  assert (offered (written (stdout g) (result g) (output_idx g)) = report l) as Hoff.
  { rewrite offered_written, Es, Hpend, app_assoc, Htext. done. }
  rewrite Es in *. unfold wp. split; [|split].
  - eexists _, _. split; [reflexivity|]. split; [done|]. cbn [fst].
    rewrite length_take. lia.
  - by rewrite Hoff.
  - destruct (Z.eqb_spec (answer (default Accept (head (script (stdout f))))
                (output_idx g)) (-1)) as [Hrej|Hacc]; [right|by left].
    split; [done|]. rewrite (script_head sc) in Hrej by done.
    unfold written. cbn [calls]. rewrite length_app. simpl.
    rewrite Nat.add_1_r. simpl.
    destruct (sc !! length (calls (stdout f))) as [r|] eqn:Hr; simpl in Hrej.
    + apply answer_rejects in Hrej as ->; [done|lia].
    + lia.
Qed.

(** Lines 132-143. *)
Lemma finish_logs (l : list ascii) (f : frame) :
  sane f -> logs sc l f -> wp (finish f) (fun _ => False) (outcome sc l).
Proof.
  intros Hs Hlg. pose proof (sane_bounds _ Hs) as [Hlt Hby Hlr Hi].
  rewrite finish_eq by done.
  on_capacity f 2.
  - destruct (Z.eqb_spec (answer (default Accept (head (script (stdout f))))
                (output_idx f)) (-1)) as [Hrej|Hacc].
    + apply (rejected_outcome l); [done|]. apply logs_rejected; (done || lia).
    + apply closing_logs; simpl; [done|lia|]. apply logs_flushed; (done || lia).
  - apply closing_logs; [done|lia|done].
Qed.

Lemma logs_entry_frame (junk : list ascii) :
  length junk = 256%nat -> logs sc [] (entry_frame junk (fresh sc)).
Proof.
  intros Hj. split; simpl; try done.
  - destruct junk; done.
  - apply Forall_nil_2.
Qed.

Lemma clear_outside_entry (junk : list ascii) (out : fd) :
  clear_outside (entry_frame junk out).
Proof.
  intros c _. unfold seen_bit, duplicate_bit, tracker_bit, entry_frame.
  destruct (pushed_fields ["{"%char] (mkframe (replicate 64 0) junk 0 1 out))
    as (-> & _). cbn [character_tracker].
  pose proof (byte_index_range _ (uchar_range c)) as Hb.
  rewrite lookup_replicate_2 by lia. by rewrite !Z.bits_0.
Qed.

(** The loop from the first iteration on. *)
Lemma scan_from_entry (junk : list ascii) (mem : string) :
  length junk = 256%nat ->
  wp (scan mem (entry_frame junk (fresh sc)))
     (fun f => sane f /\ tracks (c_str mem) f /\ clear_outside f /\
               logs sc (second_occurrences (c_str mem)) f)
     (outcome sc (second_occurrences (c_str mem))).
Proof.
  intros Hj.
  eapply wp_mono;
    [apply (scan_logs sc mem [] []);
       [by apply entry_frame_sane; [|apply Forall_nil_2]
       |apply tracks_entry|apply clear_outside_entry|by apply logs_entry_frame]
    |done|].
  intros rv w (k & Hk & Hrej). by apply (rejected_outcome k).
Qed.

(** A call on a non-empty string returns, in one of the ways of [outcome]. *)
Lemma find_duplicates_from_outcome (junk : list ascii) (mem : string) :
  length junk = 256%nat -> c_str mem <> [] ->
  exists rv w,
    find_duplicates_from junk (Some mem) (fresh sc) = Some (rv, w) /\
    outcome sc (second_occurrences (c_str mem)) rv w.
Proof.
  intros Hj Hne. rewrite find_duplicates_from_eq by done.
  rewrite is_null_or_empty_c_str, bool_decide_eq_false_2 by done. simpl default.
  pose proof (scan_from_entry junk mem Hj) as Hscan.
  assert (wp (scan mem (entry_frame junk (fresh sc)) ≫= finish) (fun _ => False)
            (outcome sc (second_occurrences (c_str mem)))) as Hrun.
  { eapply wp_bind; [exact Hscan|]. intros f (Hs & _ & _ & Hlg).
    by apply finish_logs. }
  destruct (scan _ _ ≫= finish) as [?|rv w|]; [done| |done].
  by exists rv, w.
Qed.

End Outcome.

(** ** Consequences for a caller *)

Section Caller.

(** The return value of a call against the log of its writes. *)
Lemma find_duplicates_rv (str : option string) (sc : list reply) :
  exists rv w,
    find_duplicates str (fresh sc) = Some (rv, w) /\
    (rv = 0 \/ rv = -1) /\
    (rv = 0 <-> is_null_or_empty str = false /\ unfailed (calls w)).
Proof.
  unfold find_duplicates. rewrite find_duplicates_from_eq by done.
  destruct (is_null_or_empty str).
  - eexists _, _. split; [done|]. split; [by right|].
    split; [done|]. by intros [? _].
  - pose proof (scan_sane (default EmptyString str) _
                  (entry_frame_sane (replicate 256 NUL) (fresh sc) eq_refl
                     (Forall_nil_2 _))) as Hscan.
    apply (wp_mono _ sane sane failed_last settled) in Hscan; [|done|by right].
    pose proof (wp_bind _ finish _ (fun _ => False) settled Hscan finish_sane) as Hrun.
    destruct (scan _ _ ≫= finish) as [?|rv w|]; [done| |done].
    exists rv, w. split; [done|].
    destruct Hrun as [[-> Hu]|[-> (pre & buf & Hc & Hu)]].
    + split; [by left|]. done.
    + split; [by right|]. split; [done|]. intros [_ Hbad]. exfalso.
      rewrite Hc in Hbad. apply Forall_app in Hbad as [_ Hbad].
      by apply Forall_inv in Hbad.
Qed.

(** A report takes at most two writes. *)
Lemma outcome_calls (sc : list reply) (s : list ascii) (rv : Z) (w : fd) :
  outcome sc (second_occurrences s) rv w -> (length (calls w) <= 2)%nat.
Proof.
  intros ((pre & c & Hc & Hpre & Hlast) & Hoff%prefix_length & _).
  rewrite length_report in Hoff. pose proof (second_occurrences_length s).
  unfold offered in Hoff. rewrite Hc, fmap_app, concat_app, length_app in Hoff.
  simpl in Hoff. rewrite app_nil_r in Hoff.
  pose proof (batched_length pre Hpre).
  rewrite Hc, length_app. simpl. lia.
Qed.

Lemma c_str_app (pre post : string) :
  c_str pre = String.list_ascii_of_string pre ->
  c_str (pre +:+ post) = c_str pre ++ c_str post.
Proof.
  induction pre as [|c rest IH]; intros Hpre; [done|].
  simpl in *. destruct (Ascii.eqb c NUL); [done|].
  injection Hpre as Hrest. by rewrite IH.
Qed.

(** The loop reads the C string and nothing behind it. *)
Lemma scan_c_str (mem mem' : string) (f : frame) :
  c_str mem = c_str mem' -> scan mem f = scan mem' f.
Proof.
  revert mem' f. induction mem as [|c rest IH]; intros [|c' rest'] f; simpl.
  - done.
  - destruct (Ascii.eqb c' NUL); done.
  - destruct (Ascii.eqb c NUL); done.
  - destruct (Ascii.eqb c NUL), (Ascii.eqb c' NUL); try done.
    intros [= -> Hrest]. apply bind_ext. intros f'. by apply IH.
Qed.

End Caller.

(** X1: every call returns 0 or -1, and it returns 0 exactly when the
    string was neither absent nor empty and no write returned -1; a write
    that took only part of its bytes counts as a success. *)
Theorem return_value_tells_rejection (str : option string) (sc : list reply) :
  exists rv w,
    find_duplicates str (fresh sc) = Some (rv, w) /\
    (rv = 0 \/ rv = -1) /\
    (rv = 0 <-> is_null_or_empty str = false /\ unfailed (calls w)).
Proof. apply find_duplicates_rv. Qed.

(** X2: on a non-empty string, whatever the sink answers, the bytes handed
    to [write], call after call, are a beginning of the report of the
    symbols that occur twice; they are the whole report when the call
    returns 0, and the call returns -1 only when the sink's reply to the
    last call was a rejection. *)
Theorem offered_bytes_begin_the_report (mem : string) (sc : list reply) :
  c_str mem <> [] ->
  exists rv w,
    find_duplicates (Some mem) (fresh sc) = Some (rv, w) /\
    offered w `prefix_of` report (second_occurrences (c_str mem)) /\
    (rv = 0 -> offered w = report (second_occurrences (c_str mem))) /\
    (rv = -1 -> sc !! pred (length (calls w)) = Some Reject).
Proof.
  intros Hne.
  destruct (find_duplicates_from_outcome sc (replicate 256 NUL) mem eq_refl Hne)
    as (rv & w & Hrun & _ & Hpre & Hend).
  exists rv, w. split; [done|]. split; [done|].
  destruct Hend as [[-> Hall]|[-> Hrej]]; split; done.
Qed.

Lemma offered_bytes_begin_the_report_witness :
  c_str main_str <> [] /\
  exists rv w,
    find_duplicates (Some main_str) (fresh [Reject]) = Some (rv, w) /\
    offered w `prefix_of` report (second_occurrences (c_str main_str)) /\
    rv = -1 /\ length (offered w) = 254%nat.
Proof.
  assert (c_str main_str <> []) as Hne by (by vm_compute).
  split; [exact Hne|].
  destruct (offered_bytes_begin_the_report main_str [Reject] Hne)
    as (rv & w & Hrun & Hpre & _).
  assert ((fun p => (p.1, length (offered p.2)))
            <$> find_duplicates (Some main_str) (fresh [Reject])
          = Some (-1, 254%nat)) as Hc by (by vm_compute).
  rewrite Hrun in Hc. injection Hc as Hrv Hlen.
  exists rv, w. split; [exact Hrun|]. split; [exact Hpre|].
  split; [exact Hrv|exact Hlen].
Defined.

(** X3: on a non-empty string and a sink that never rejects, the call
    returns 0 and has handed the whole report to [write], even if the sink
    took only a part of it: the return value of a short write is not
    examined. *)
Theorem short_writes_pass_for_success (mem : string) (sc : list reply) :
  c_str mem <> [] -> lenient sc ->
  exists w,
    find_duplicates (Some mem) (fresh sc) = Some (0, w) /\
    offered w = report (second_occurrences (c_str mem)).
Proof.
  intros Hne Hsc.
  destruct (find_duplicates_from_outcome sc (replicate 256 NUL) mem eq_refl Hne)
    as (rv & w & Hrun & _ & _ & Hend).
  destruct Hend as [[-> Hall]|[-> Hrej]]; [by exists w|].
  exfalso. by apply (proj1 (Forall_lookup _ _) Hsc _ _ Hrej).
Qed.

Lemma short_writes_pass_for_success_witness :
  c_str "aabb" <> [] /\ lenient [Short 3] /\
  exists w,
    find_duplicates (Some "aabb") (fresh [Short 3]) = Some (0, w) /\
    offered w = line "{a, b}" /\
    delivered w = ["{"%char; "a"%char; ","%char].
Proof.
  assert (lenient [Short 3]) as Hsc by (by apply Forall_singleton).
  split; [done|]. split; [exact Hsc|].
  destruct (short_writes_pass_for_success "aabb" [Short 3]) as (w & Hrun & Hoff);
    [done|exact Hsc|].
  assert (delivered <$> (snd <$> find_duplicates (Some "aabb") (fresh [Short 3]))
          = Some ["{"%char; "a"%char; ","%char]) as Hd by (by vm_compute).
  rewrite Hrun in Hd. injection Hd as Hd.
  exists w. split; [exact Hrun|]. split; [by rewrite Hoff|exact Hd].
Defined.

(** X4: on a non-empty string, whatever the sink answers, every write
    carries at most 255 bytes and at least 2, every write but the last
    carries at least 253, and there are at most two writes. *)
Theorem writes_are_batched (mem : string) (sc : list reply) :
  c_str mem <> [] ->
  exists rv w pre c,
    find_duplicates (Some mem) (fresh sc) = Some (rv, w) /\
    calls w = pre ++ [c] /\
    Forall (fun c => (253 <= length c.1 <= 255)%nat) pre /\
    (2 <= length c.1 <= 255)%nat /\
    (length (calls w) <= 2)%nat.
Proof.
  intros Hne.
  destruct (find_duplicates_from_outcome sc (replicate 256 NUL) mem eq_refl Hne)
    as (rv & w & Hrun & Hout).
  pose proof (outcome_calls _ _ _ _ Hout) as Hlen.
  destruct Hout as ((pre & c & Hc & Hpre & Hlast) & _).
  by exists rv, w, pre, c.
Qed.

Lemma writes_are_batched_witness :
  c_str main_str <> [] /\
  exists rv w,
    find_duplicates (Some main_str) (fresh [Short 1]) = Some (rv, w) /\
    (length (calls w) <= 2)%nat /\
    (fun c => length c.1) <$> calls w = [254; 32]%nat.
Proof.
  assert (c_str main_str <> []) as Hne by (by vm_compute).
  split; [exact Hne|].
  destruct (writes_are_batched main_str [Short 1] Hne)
    as (rv & w & pre & c & Hrun & _ & _ & _ & Hlen).
  assert ((fun p => (fun c => length c.1) <$> calls p.2)
            <$> find_duplicates (Some main_str) (fresh [Short 1])
          = Some [254; 32]%nat) as Hc by (by vm_compute).
  rewrite Hrun in Hc. injection Hc as Hc.
  exists rv, w. split; [exact Hrun|]. split; [exact Hlen|exact Hc].
Defined.

(** X5: when the loop leaves the string, whatever the sink answered and
    whatever [result] held on entry, the seen bit of a character is set
    exactly when the character is in the alphabet and occurred, and its
    duplicate bit exactly when it is in the alphabet and occurred at least
    twice; the bits of the other characters stay clear. *)
Theorem tracker_counts_occurrences (junk : list ascii) (mem : string)
    (sc : list reply) :
  length junk = 256%nat ->
  wp (scan mem (entry_frame junk (fresh sc)))
     (fun f => forall c,
        (seen_bit f c = true <->
         printable c = true /\ (1 <= occurrences c (c_str mem))%nat) /\
        (duplicate_bit f c = true <->
         printable c = true /\ (2 <= occurrences c (c_str mem))%nat))
     (fun _ _ => True).
Proof.
  intros Hj.
  eapply wp_mono; [by apply (scan_from_entry sc junk mem)| |done].
  intros f (_ & Ht & Hcl & _) c.
  destruct (printable c) eqn:Hc.
  - destruct (Ht c Hc) as [Hs Hd]. split; [rewrite Hs|rewrite Hd]; tauto.
  - destruct (Hcl c Hc) as [-> ->]. split; split; (done || by intros [? _]).
Qed.

Lemma tracker_counts_occurrences_witness :
  length (replicate 256 "x"%char) = 256%nat /\
  wp (scan "abca" (entry_frame (replicate 256 "x"%char) (fresh [])))
     (fun f => duplicate_bit f "a" = true /\ seen_bit f "b" = true /\
               duplicate_bit f "b" = false /\ seen_bit f "z" = false)
     (fun _ _ => True).
Proof.
  split; [reflexivity|].
  eapply wp_mono;
    [apply (tracker_counts_occurrences (replicate 256 "x"%char) "abca" []);
     reflexivity| |done].
  intros f Hf. cbv beta in Hf.
  assert (forall c, occurrences c (c_str "abca")
                    = length (filter (fun x => x = c) ["a"; "b"; "c"; "a"]%char))
    as Hocc by done.
  repeat split.
  - apply (Hf "a"%char). split; [done|]. rewrite Hocc. vm_compute. lia.
  - apply (Hf "b"%char). split; [done|]. rewrite Hocc. vm_compute. lia.
  - destruct (duplicate_bit f "b") eqn:Hb; [|done].
    apply (Hf "b"%char) in Hb as [_ Hb]. rewrite Hocc in Hb. vm_compute in Hb. lia.
  - destruct (seen_bit f "z") eqn:Hz; [|done].
    apply (Hf "z"%char) in Hz as [_ Hz]. rewrite Hocc in Hz. vm_compute in Hz. lia.
Defined.

(** X6: on a non-empty string and a sink that accepts, the report lists at
    most 95 symbols, and the output is 3 bytes for an empty list and
    [3 * n + 1] bytes for [n] symbols: between 3 and 286 bytes whatever the
    length of the string. *)
Theorem report_size_bounded (mem : string) (sc : list reply) :
  accepting sc -> c_str mem <> [] ->
  exists w,
    find_duplicates (Some mem) (fresh sc) = Some (0, w) /\
    (length (second_occurrences (c_str mem)) <= 95)%nat /\
    length (delivered w)
    = (3 + (3 * length (second_occurrences (c_str mem)) - 2))%nat /\
    (3 <= length (delivered w) <= 286)%nat.
Proof.
  intros Hsc Hne.
  destruct (find_duplicates_from_report (replicate 256 NUL) mem sc) as (w & Hrun & Hw);
    [done..|].
  pose proof (second_occurrences_length (c_str mem)) as Hlen.
  exists w. rewrite Hw, length_report. repeat split; (done || lia).
Qed.

Lemma report_size_bounded_witness :
  accepting [] /\ c_str main_str <> [] /\
  exists w,
    find_duplicates (Some main_str) (fresh []) = Some (0, w) /\
    length (delivered w) = 286%nat.
Proof.
  assert (c_str main_str <> []) as Hne by (by vm_compute).
  split; [apply Forall_nil_2|]. split; [exact Hne|].
  destruct (report_size_bounded main_str [] (Forall_nil_2 _) Hne)
    as (w & Hrun & _ & Hlen & _).
  exists w. split; [exact Hrun|]. rewrite Hlen. by vm_compute.
Defined.

(** X7: with sinks that accept, the report of a string that continues a
    non-empty string lists the symbols reported for the shorter string,
    in the same order, followed by the symbols whose second occurrence
    lies in the continuation. *)
Theorem longer_input_extends_report (pre post : string) (sc sc' : list reply) :
  accepting sc -> accepting sc' ->
  c_str pre <> [] -> c_str pre = String.list_ascii_of_string pre ->
  exists w w',
    find_duplicates (Some pre) (fresh sc) = Some (0, w) /\
    find_duplicates (Some (pre +:+ post)) (fresh sc') = Some (0, w') /\
    delivered w = report (second_occurrences (c_str pre)) /\
    delivered w'
    = report (second_occurrences (c_str pre)
              ++ second_occurrences_from (c_str pre) (c_str post)).
Proof.
  intros Hsc Hsc' Hne Hpre.
  destruct (find_duplicates_from_report (replicate 256 NUL) pre sc) as (w & Hrun & Hw);
    [done..|].
  destruct (find_duplicates_from_report (replicate 256 NUL) (pre +:+ post) sc')
    as (w' & Hrun' & Hw'); [done|done| |].
  { rewrite c_str_app by done. by destruct (c_str pre). }
  exists w, w'. split; [done|]. split; [done|]. split; [done|].
  rewrite Hw', c_str_app by done. unfold second_occurrences.
  by rewrite second_occurrences_from_app.
Qed.

Lemma longer_input_extends_report_witness :
  accepting [] /\ c_str "aab" <> [] /\
  c_str "aab" = String.list_ascii_of_string "aab" /\
  exists w w',
    find_duplicates (Some "aab") (fresh []) = Some (0, w) /\
    find_duplicates (Some "aabcbc") (fresh []) = Some (0, w') /\
    delivered w = line "{a}" /\ delivered w' = line "{a, b, c}".
Proof.
  split; [apply Forall_nil_2|]. split; [done|]. split; [done|].
  destruct (longer_input_extends_report "aab" "cbc" [] [])
    as (w & w' & Hrun & Hrun' & Hw & Hw'); [apply Forall_nil_2..|done|done|].
  exists w, w'. split; [exact Hrun|]. split; [exact Hrun'|].
  split; [by rewrite Hw|by rewrite Hw'].
Defined.

(** X8: the driver returns 0 whatever the sink answers: the value returned
    by [find_duplicates] is dropped, so a rejected write, which makes the
    call return -1, does not show in the driver's result.  The driver's
    report takes at most two writes. *)
Theorem main_result_hides_rejection (sc : list reply) :
  exists rv w,
    find_duplicates (Some main_str) (fresh sc) = Some (rv, w) /\
    main (fresh sc) = Some (0, w) /\
    (rv = -1 <-> ~ unfailed (calls w)) /\
    (length (calls w) <= 2)%nat.
Proof.
  destruct (find_duplicates_rv (Some main_str) sc) as (rv & w & Hrun & Hrv & Hiff).
  assert (c_str main_str <> []) as Hne by (by vm_compute).
  destruct (find_duplicates_from_outcome sc (replicate 256 NUL) main_str eq_refl Hne)
    as (rv' & w' & Hrun' & Hout).
  change (find_duplicates_from (replicate 256 NUL)) with find_duplicates in Hrun'.
  rewrite Hrun in Hrun'. injection Hrun' as <- <-.
  exists rv, w. split; [done|]. split; [unfold main; by rewrite Hrun|].
  split; [|by apply (outcome_calls sc (c_str main_str) rv)].
  rewrite is_null_or_empty_c_str, bool_decide_eq_false_2 in Hiff by done.
  destruct Hrv as [->| ->].
  - split; [done|]. intros Hbad. exfalso. by apply Hbad, Hiff.
  - split; [|done]. intros _ Hu.
    pose proof (proj2 Hiff (conj eq_refl Hu)) as Hneg. discriminate Hneg.
Qed.

(** X9: the result of a call (return value and every write) depends only
    on the characters before the first NUL: two memories that hold the
    same C string give the same result, whatever lies behind the
    terminator. *)
Theorem bytes_after_terminator_unread (mem mem' : string) (out : fd) :
  c_str mem = c_str mem' ->
  find_duplicates (Some mem) out = find_duplicates (Some mem') out.
Proof.
  intros Heq. unfold find_duplicates. rewrite !find_duplicates_from_eq by done.
  rewrite !is_null_or_empty_c_str, Heq. simpl default.
  by rewrite (scan_c_str mem mem').
Qed.

Lemma bytes_after_terminator_unread_witness :
  c_str padded_input = c_str "aba" /\
  find_duplicates (Some padded_input) (fresh []) = find_duplicates (Some "aba") (fresh []) /\
  find_duplicates (Some padded_input) (fresh []) = Some (0, mkfd [(line "{a}", 4)] []).
Proof.
  split; [reflexivity|].
  split; [by apply bytes_after_terminator_unread|reflexivity].
Defined.
